(** * Condat-Vu sparse reconstruction with reweighting: the driver

    A shallow embedding of [sparse_rec_condatvu]
    (pisap/plugins/mri/dictionary_learning/reconstruct.py) and the
    properties of its orchestration: parameter derivation, step-size
    selection, the first splitting pass, the reweighting loop and the
    final conversion of the dual solution.

    Conventions of the embedding.
    - The scalar arguments and the operators' spectral bounds are Python
      floats, idealised as exact rationals ([Q]).  A float division whose
      divisor is zero raises [ZeroDivisionError], as [1.0 / 0.0] does in
      Python.  Three things binary64 floats do are outside the embedding:
      rounding; [OverflowError] from [norm ** 2]; and the [inf] that a
      NumPy scalar gives as a zero divisor where a built-in float raises.
      Statements about a whole call are therefore made under the hypothesis
      that the step-size block (lines 134-144) has produced its values,
      written [step_size_selector ... = Ok s], and not under conditions on
      the numbers that would make it do so.
    - The interpreter and libraries are those the source was written for
      ([time.clock] and [np.complex] exist).
    - An array is its shape and its flattened complex entries.
    - The collaborators the driver receives or imports (linear operator,
      reweighting strategies, noise estimator, optimizer) are interfaces:
      type classes whose methods are state transformers.  The driver's own
      control flow, arithmetic and constants are those of the source.
    - The optimizer's attributes [x_new], [y_new], [x_final], [y_final]
      are fields that always hold an array.  The class the source imports
      ([sf_tools]' [Condat]) assigns [x_new] and [y_new] in [update()]
      only: read before the first update (line 207 with
      [max_nb_of_iter <= 0]) they raise [AttributeError], where the
      embedding reads whatever the constructor is taken to have left.
    - Every call the driver makes on a collaborator is logged as an event,
      so that the order and the arguments of the calls can be stated. *)

From Stdlib Require Import ZArith QArith Qfield List String Bool Lia Lqa.
From Stdlib Require Import Qabs.
Import ListNotations.

Set Implicit Arguments.

Local Open Scope Q_scope.

(** ** Arrays *)

Record complex : Set := mkC { re : Q; im : Q }.

Definition c0 : complex := mkC 0 0.

(** A Python float stored into a complex array. *)
Definition of_float (v : Q) : complex := mkC v 0.

Record ndarray : Set := mkArray { shape : list nat; data : list complex }.

Definition size (shp : list nat) : nat := fold_right Nat.mul 1%nat shp.

(** [np.zeros(shape, dtype=np.complex)] *)
Definition np_zeros (shp : list nat) : ndarray :=
  mkArray shp (repeat c0 (size shp)).

(** [a[...] = v]: every entry is overwritten, the shape is kept. *)
Definition fill (v : Q) (a : ndarray) : ndarray :=
  mkArray (shape a) (map (fun _ => of_float v) (data a)).

(** Every entry of [a] is the constant [c]. *)
Definition all_entries (c : complex) (a : ndarray) : Prop :=
  Forall (fun e => e = c) (data a).

(** ** Exceptions and results *)

Inductive exn : Set :=
| ValueError (msg : string)
| ZeroDivisionError
| AttributeError.

Inductive result (A : Type) : Type :=
| Ok (a : A)
| Raise (e : exn).
Arguments Ok {A} a.
Arguments Raise {A} e.

(** Float division [a / b] of built-in floats: a zero divisor raises, and
    the quotient is exact (no rounding, no overflow). *)
Definition fdiv (a b : Q) : result Q :=
  if Qeq_bool b 0 then Raise ZeroDivisionError else Ok (a / b).

(** ** The objects the driver builds *)

(** [sf_tools.signal.proximity.Positive()] or
    [sf_tools.signal.linear.Identity()]: which primal proximity operator the
    optimizer is given. *)
Inductive prox_kind : Set := Positive | Identity.

(** The dual proximity operator [Threshold(weights)] of [.proximity]: the
    driver builds it from a weight array and later assigns its [weights]
    attribute; the thresholding itself happens inside the optimizer. *)
Record Threshold : Set := mkThreshold { weights : ndarray }.

(** The keyword arguments of [DualGapCost(...)] (the [linear_op] handle
    apart, which is the shared linear operator). *)
Record DualGapCost : Set := mkDualGapCost {
  initial_cost : Q;
  tolerance : Q;
  cost_interval : Z;
  test_range : Z;
  cost_verbose : Z;
  plot_output : option string
}.

(** The gradient operator as the driver reads it: [fourier_op.shape],
    [spec_rad], the measured data [y] and the method [MtX]. *)
Record GradientOp : Type := mkGradientOp {
  fourier_shape : list nat;
  spec_rad : Q;
  grad_y : ndarray;
  MtX : ndarray -> ndarray
}.

(** The keyword arguments of [Condat(...)].  [linear] is the shared linear
    operator; [rho_update], [sigma_update] and [tau_update] are [None] and
    [auto_iterate] is [False] in the one call the driver makes. *)
Record Condat_args : Type := mkCondatArgs {
  arg_x : ndarray;
  arg_y : ndarray;
  arg_grad : GradientOp;
  arg_prox : prox_kind;
  arg_prox_dual : Threshold;
  arg_cost : DualGapCost;
  arg_rho : Q;
  arg_sigma : Q;
  arg_tau : Q
}.

(** The optimizer object: the attributes the driver reads or assigns, and
    the rest of its state.  [x_new] and [y_new] are total: before the first
    update they hold what the constructor left, where the imported class
    has no such attribute yet. *)
Record Condat_obj (I : Type) : Type := mkCondat {
  x_new : ndarray;
  y_new : ndarray;
  x_final : ndarray;
  y_final : ndarray;
  converge : bool;
  internals : I
}.

(** ** Events *)

(** What [print] is given after its label. *)
Inductive printed : Set :=
| PNothing
| PFloat (v : Q)
| POptFloat (v : option Q)
| PInt (n : Z)
| PBool (b : bool)
| PShape (s : list nat)
| POpaque.

Inductive event : Type :=
| EvPrint (label : string) (v : printed)
| EvClock
| EvZeros (shp : list nat)
| EvLinearOp (x : ndarray)
| EvMtX (x : ndarray)
| EvSigmaMad (x : ndarray)
| EvNewReweight (kind : string) (w : ndarray)
| EvL2norm (shp : list nat)
| EvNewCost (c : DualGapCost)
| EvNewCondat (a : Condat_args)
| EvUpdate (w : ndarray)
| EvReweight (x : ndarray)
| EvSetWeights (w : ndarray)
| EvIterate (max_iter : Z)
| EvSetCoeff (y : ndarray).

Definition is_print (e : event) : bool :=
  match e with EvPrint _ _ => true | _ => false end.

(** The trace without what was printed. *)
Definition silent (t : list event) : list event :=
  filter (fun e => negb (is_print e)) t.

(** ** Collaborator interfaces *)

(** The linear (sparsifying) operator, an object with state [L] whose
    coefficient attribute has type [C].  [op] returns a fresh array: what
    the driver writes into one result is not seen in another. *)
Class LinearOperator (L C : Type) : Type := {
  op : ndarray -> L -> ndarray * L;
  l2norm : list nat -> L -> Q * L;
  set_coeff : ndarray -> L -> L;
  coeff : L -> C
}.

(** The reweighting strategies [cwbReweight(weights)] and
    [mReweight(weights, linear_op, thresh_factor)], objects with state [R].
    [cwb_reweight] is the [reweight] method of the first, [m_reweight] that
    of the second, which goes through the linear operator and returns the
    new noise estimate. *)
Class Reweighting (L R : Type) : Type := {
  cwbReweight : ndarray -> R;
  mReweight : ndarray -> Q -> R;
  rw_weights : R -> ndarray;
  cwb_reweight : ndarray -> R -> R;
  m_reweight : ndarray -> R -> L -> Q * R * L
}.

(** The optimizer [sf_tools.signal.optimisation.Condat].  Its methods see
    the dual proximity operator and the linear operator the driver shares
    with it, hence take their current state.  What [update] and [iterate]
    compute, and how many updates [iterate] runs within its bound, is the
    optimizer's business. *)
Class Optimizer (L I : Type) : Type := {
  Condat : Condat_args -> Condat_obj I;
  update : Threshold -> Condat_obj I -> L -> Condat_obj I * L;
  iterate : Z -> Threshold -> Condat_obj I -> L -> Condat_obj I * L
}.

(** ** Step-size selection (lines 134-144) *)

(** [eps = 1.0e-8] *)
Definition eps : Q := 1 # 100000000.

(** [if sigma is None: sigma = 0.5] *)
Definition select_sigma (sigma : option Q) : Q :=
  match sigma with
  | Some s => s
  | None => 1 # 2
  end.

(** [if tau is None: tau = 1.0 / (lipschitz_cst/2 + sigma * norm**2 + eps)] *)
Definition select_tau (lipschitz_cst norm sigma : Q) (tau : option Q)
  : result Q :=
  match tau with
  | Some t => Ok t
  | None => fdiv 1 (lipschitz_cst / 2 + sigma * norm ^ 2 + eps)
  end.

(** [convergence_test = (1.0 / tau - sigma * norm ** 2 >= lipschitz_cst / 2.0)] *)
Definition convergence_test (tau sigma norm lipschitz_cst : Q) : result bool :=
  match fdiv 1 tau with
  | Ok inv_tau =>
      Ok (Qle_bool (lipschitz_cst / 2) (inv_tau - sigma * norm ^ 2))
  | Raise e => Raise e
  end.

Record step_sizes : Set := mkSteps {
  st_sigma : Q;
  st_tau : Q;
  st_convergence_test : bool
}.

Definition step_size_selector (lipschitz_cst norm : Q) (sigma tau : option Q)
  : result step_sizes :=
  let sigma := select_sigma sigma in
  match select_tau lipschitz_cst norm sigma tau with
  | Ok tau =>
      match convergence_test tau sigma norm lipschitz_cst with
      | Ok b => Ok (mkSteps sigma tau b)
      | Raise e => Raise e
      end
  | Raise e => Raise e
  end.

(** ** The estimation mode *)

(** [std_est_method == name] *)
Definition is_method (std_est_method : option string) (name : string) : bool :=
  match std_est_method with
  | Some s => String.eqb s name
  | None => false
  end.

(** [std_est_method in (None, "primal", "dual")] *)
Definition known_method (std_est_method : option string) : bool :=
  match std_est_method with
  | None => true
  | Some _ => is_method std_est_method "primal"
              || is_method std_est_method "dual"
  end.

Definition unrecognized (std_est_method : option string) : string :=
  match std_est_method with
  | Some s => "Unrecognize std estimation method '" ++ s ++ "'."
  | None => "Unrecognize std estimation method 'None'."
  end.

(** ** The driver's monad *)

(** A computation starts from the state of the caller's linear operator and
    gives a result or an exception, the operator's new state and the events
    it produced. *)
Record outcome (L A : Type) : Type := mkOutcome {
  res : result A;
  lin : L;
  trace : list event
}.

Definition M (L A : Type) : Type := L -> outcome L A.

Definition ret {L A} (a : A) : M L A := fun l => mkOutcome (Ok a) l [].

Definition raise {L A} (e : exn) : M L A := fun l => mkOutcome (Raise e) l [].

Definition bind {L A B} (m : M L A) (f : A -> M L B) : M L B :=
  fun l =>
    let o1 := m l in
    match res o1 with
    | Ok a =>
        let o2 := f a (lin o1) in
        mkOutcome (res o2) (lin o2) (trace o1 ++ trace o2)
    | Raise e => mkOutcome (Raise e) (lin o1) (trace o1)
    end.

Declare Scope py_scope.
Delimit Scope py_scope with py.
Notation "x <- m ;; k" := (bind m (fun x => k))
  (at level 61, m at next level, right associativity) : py_scope.
Notation "m ;; k" := (bind m (fun _ => k))
  (at level 61, right associativity) : py_scope.

(** One logged event. *)
Definition emit {L} (e : event) : M L unit := fun l => mkOutcome (Ok tt) l [e].

(** A pure computation that may raise. *)
Definition lift {L A} (r : result A) : M L A := fun l => mkOutcome r l [].

(** [if verbose > 0: ...] *)
Definition when_verbose {L} (verbose : Z) (m : M L unit) : M L unit :=
  if (0 <? verbose)%Z then m else ret tt.

Definition print {L} (label : string) (v : printed) : M L unit :=
  emit (EvPrint label v).

(** [for i in range(n): s = body(i, s)], from index [i]. *)
Fixpoint for_from {L S} (n : nat) (i : Z) (body : Z -> S -> M L S) (s : S)
  : M L S :=
  match n with
  | O => ret s
  | Datatypes.S k => bind (body i s) (for_from k (i + 1)%Z body)
  end.

Definition for_range {L S} (n : Z) (body : Z -> S -> M L S) (s : S) : M L S :=
  for_from (Z.to_nat n) 0%Z body s.

(** [m], started from [l], returns [a], leaves the linear operator in [l']
    and produces the events [t]. *)
Definition runs {L A} (m : M L A) (l : L) (a : A) (l' : L) (t : list event)
  : Prop :=
  m l = mkOutcome (Ok a) l' t.

(** A trace of prints only. *)
Definition only_prints (t : list event) : Prop :=
  forallb is_print t = true.

(** What a verbose run does at one printing site: it prints, and nothing
    else happens. *)
Definition chatter {L} (m : M L unit) : Prop :=
  forall l, runs m l tt l (trace (m l)) /\ only_prints (trace (m l)).

(** Two outcomes that differ at most by what was printed. *)
Definition same_but_prints {L A} (o o' : outcome L A) : Prop :=
  res o = res o' /\ lin o = lin o' /\ silent (trace o) = silent (trace o').

(** ** The driver *)

Section Driver.

Variables L C R I : Type.
Context {linear : LinearOperator L C}.
Context {reweighting : Reweighting L R}.
Context {optimizer : Optimizer L I}.

(** [sf_tools.math.stats.sigma_mad], the external noise estimator. *)
Variable sigma_mad : ndarray -> Q.

Local Open Scope py_scope.

(** *** Calls on the collaborators *)

Definition zeros (shp : list nat) : M L ndarray :=
  fun l => mkOutcome (Ok (np_zeros shp)) l [EvZeros shp].

Definition linear_op_op (x : ndarray) : M L ndarray :=
  fun l => mkOutcome (Ok (fst (op x l))) (snd (op x l)) [EvLinearOp x].

Definition linear_op_l2norm (shp : list nat) : M L Q :=
  fun l => mkOutcome (Ok (fst (l2norm shp l))) (snd (l2norm shp l))
             [EvL2norm shp].

Definition linear_op_set_coeff (y : ndarray) : M L unit :=
  fun l => mkOutcome (Ok tt) (set_coeff y l) [EvSetCoeff y].

Definition linear_op_coeff : M L C :=
  fun l => mkOutcome (Ok (coeff l)) l [].

Definition estimate_std (gradient_op : GradientOp) : M L Q :=
  let residual := MtX gradient_op (grad_y gradient_op) in
  fun l => mkOutcome (Ok (sigma_mad residual)) l
             [EvMtX (grad_y gradient_op); EvSigmaMad residual].

Definition new_cwbReweight (w : ndarray) : M L R :=
  fun l => mkOutcome (Ok (cwbReweight w)) l [EvNewReweight "cwbReweight" w].

Definition new_mReweight (w : ndarray) (thresh_factor : Q) : M L R :=
  fun l => mkOutcome (Ok (mReweight w thresh_factor)) l
             [EvNewReweight "mReweight" w].

Definition new_DualGapCost (c : DualGapCost) : M L DualGapCost :=
  fun l => mkOutcome (Ok c) l [EvNewCost c].

Definition new_Condat (a : Condat_args) : M L (Condat_obj I) :=
  fun l => mkOutcome (Ok (Condat a)) l [EvNewCondat a].

Definition opt_update (prox_dual_op : Threshold) (opt : Condat_obj I)
  : M L (Condat_obj I) :=
  fun l => mkOutcome (Ok (fst (update prox_dual_op opt l)))
             (snd (update prox_dual_op opt l))
             [EvUpdate (weights prox_dual_op)].

Definition opt_iterate (max_iter : Z) (prox_dual_op : Threshold)
  (opt : Condat_obj I) : M L (Condat_obj I) :=
  fun l => mkOutcome (Ok (fst (iterate max_iter prox_dual_op opt l)))
             (snd (iterate max_iter prox_dual_op opt l)) [EvIterate max_iter].

Definition reweight_cwb (x : ndarray) (reweight_op : R) : M L R :=
  fun l => mkOutcome (Ok (cwb_reweight x reweight_op)) l [EvReweight x].

Definition reweight_m (x : ndarray) (reweight_op : R) : M L (Q * R) :=
  fun l => mkOutcome (Ok (fst (m_reweight x reweight_op l)))
             (snd (m_reweight x reweight_op l)) [EvReweight x].

(** *** Lines 101-129: initial weights, reweighting strategy, dual prox *)

Record derived : Type := mkDerived {
  d_std_est : option Q;
  d_reweight_op : option R;
  d_prox_dual_op : Threshold;
  d_nb_of_reweights : Z
}.

Definition parameter_deriver (gradient_op : GradientOp) (std_est : option Q)
  (std_est_method : option string) (std_thr mu : Q) (nb_of_reweights : Z)
  : M L derived :=
  x_init <- zeros (fourier_shape gradient_op) ;;
  weights <- linear_op_op x_init ;;
  if is_method std_est_method "primal" then
    std_est <- match std_est with
               | Some s => ret s
               | None => estimate_std gradient_op
               end ;;
    let weights := fill (std_thr * std_est) weights in
    reweight_op <- new_cwbReweight weights ;;
    ret (mkDerived (Some std_est) (Some reweight_op)
           (mkThreshold (rw_weights reweight_op)) nb_of_reweights)
  else if is_method std_est_method "dual" then
    let std_est := match std_est with
                   | Some s => s
                   | None => 0
                   end in
    let weights := fill (std_thr * std_est) weights in
    reweight_op <- new_mReweight weights std_thr ;;
    ret (mkDerived (Some std_est) (Some reweight_op)
           (mkThreshold (rw_weights reweight_op)) nb_of_reweights)
  else
    let weights := fill mu weights in
    ret (mkDerived std_est None (mkThreshold weights) 0%Z).

(** *** Lines 151-165 and 231-238: what verbose runs print *)

Definition rule : string := "----------------------------------------".

Definition welcome (gradient_op : GradientOp) (mu relaxation_factor : Q)
  (std_est : option Q) (s : step_sizes) (max_nb_of_iter nb_of_reweights : Z)
  (primal dual : ndarray) : M L unit :=
  print " - mu: " (PFloat mu) ;;
  print " - lipschitz constant: " (PFloat (spec_rad gradient_op)) ;;
  print " - tau: " (PFloat (st_tau s)) ;;
  print " - sigma: " (PFloat (st_sigma s)) ;;
  print " - rho: " (PFloat relaxation_factor) ;;
  print " - std: " (POptFloat std_est) ;;
  print " - 1/tau - sigma||L||^2 >= beta/2: "
    (PBool (st_convergence_test s)) ;;
  print " - data: " (PShape (shape (grad_y gradient_op))) ;;
  print " - max iterations: " (PInt max_nb_of_iter) ;;
  print " - number of reweights: " (PInt nb_of_reweights) ;;
  print " - primal variable shape: " (PShape (shape primal)) ;;
  print " - dual variable shape: " (PShape (shape dual)) ;;
  print rule PNothing.

Definition goodbye (opt : Condat_obj I) : M L unit :=
  print " - final iteration number: " POpaque ;;
  print " - final cost value: " POpaque ;;
  print " - converged: " (PBool (converge opt)) ;;
  print "Done." PNothing ;;
  print "Execution time: " POpaque ;;
  print rule PNothing.

(** *** Lines 204-228: first pass and reweighting loop *)

(** [opt.x_final = opt.x_new; opt.y_final = opt.y_new] *)
Definition publish (opt : Condat_obj I) : Condat_obj I :=
  mkCondat (x_new opt) (y_new opt) (x_new opt) (y_new opt)
    (converge opt) (internals opt).

(** The variables the reweighting loop reads and assigns. *)
Record loop_state : Type := mkLoop {
  ls_opt : Condat_obj I;
  ls_reweight_op : option R;
  ls_std_est : option Q;
  ls_prox_dual_op : Threshold
}.

Definition reweighting_pass (std_est_method : option string)
  (max_nb_of_iter verbose : Z) (reweight_index : Z) (s : loop_state)
  : M L loop_state :=
  match ls_reweight_op s with
  | None => raise AttributeError
  | Some reweight_op =>
      r <- (if is_method std_est_method "primal" then
              coeffs <- linear_op_op (x_new (ls_opt s)) ;;
              reweight_op <- reweight_cwb coeffs reweight_op ;;
              ret (reweight_op, ls_std_est s)
            else
              p <- reweight_m (x_new (ls_opt s)) reweight_op ;;
              ret (snd p, Some (fst p))) ;;
      when_verbose verbose
        (print " - reweight: " (PInt (reweight_index + 1)) ;;
         print " - std: " (POptFloat (snd r))) ;;
      emit (EvSetWeights (rw_weights (fst r))) ;;
      let prox_dual_op := mkThreshold (rw_weights (fst r)) in
      opt <- opt_iterate max_nb_of_iter prox_dual_op (ls_opt s) ;;
      ret (mkLoop opt (Some (fst r)) (snd r) prox_dual_op)
  end.

(** *** The entry point *)

Definition sparse_rec_condatvu (gradient_op : GradientOp) (linear_op : L)
  (std_est : option Q) (std_est_method : option string) (std_thr mu : Q)
  (tau sigma : option Q) (relaxation_factor : Q)
  (nb_of_reweights max_nb_of_iter : Z) (add_positivity : bool) (atol : Q)
  (verbose : Z) : outcome L (ndarray * C) :=
  (when_verbose verbose (print "condatvu_logo" PNothing) ;;
   emit EvClock ;;
   if negb (known_method std_est_method) then
     raise (ValueError (unrecognized std_est_method))
   else
     d <- parameter_deriver gradient_op std_est std_est_method std_thr mu
            nb_of_reweights ;;
     norm <- linear_op_l2norm (fourier_shape gradient_op) ;;
     let lipschitz_cst := spec_rad gradient_op in
     s <- lift (step_size_selector lipschitz_cst norm sigma tau) ;;
     primal <- zeros (fourier_shape gradient_op) ;;
     dual <- linear_op_op primal ;;
     let dual := fill 0 dual in
     when_verbose verbose
       (welcome gradient_op mu relaxation_factor (d_std_est d) s
          max_nb_of_iter (d_nb_of_reweights d) primal dual) ;;
     let prox_op := if add_positivity then Positive else Identity in
     cost_op <- new_DualGapCost
                  (mkDualGapCost 1000000 (1 # 10000) 1 4 0 None) ;;
     opt <- new_Condat
              (mkCondatArgs primal dual gradient_op prox_op
                 (d_prox_dual_op d) cost_op relaxation_factor
                 (st_sigma s) (st_tau s)) ;;
     when_verbose verbose (print "Starting optimization..." PNothing) ;;
     opt <- for_range max_nb_of_iter
              (fun _ opt => opt_update (d_prox_dual_op d) opt) opt ;;
     let opt := publish opt in
     st <- for_range (d_nb_of_reweights d)
             (reweighting_pass std_est_method max_nb_of_iter verbose)
             (mkLoop opt (d_reweight_op d) (d_std_est d)
                (d_prox_dual_op d)) ;;
     emit EvClock ;;
     when_verbose verbose (goodbye (ls_opt st)) ;;
     let x_final := x_final (ls_opt st) in
     linear_op_set_coeff (y_final (ls_opt st)) ;;
     coeffs <- linear_op_coeff ;;
     ret (x_final, coeffs)) linear_op.

(** *** The stages, as the specification words them

    These are not part of the driver: they say, in closed form, what its
    loops are expected to compute, and the theorems below compare them with
    it. *)

(** The linear operator's norm as the driver obtains it: [l2norm] is called
    after the operator has been applied once, to the zero image. *)
Definition lin_after_weights (gradient_op : GradientOp) (l : L) : L :=
  snd (op (np_zeros (fourier_shape gradient_op)) l).

Definition measured_norm (gradient_op : GradientOp) (l : L) : Q :=
  fst (l2norm (fourier_shape gradient_op) (lin_after_weights gradient_op l)).

(** Reweighting count in force: the requested one with an estimation mode,
    none in manual mode. *)
Definition effective_reweights (std_est_method : option string)
  (nb_of_reweights : Z) : nat :=
  if is_method std_est_method "primal" || is_method std_est_method "dual"
  then Z.to_nat nb_of_reweights
  else O.

(** The linear operator when the initial dual array is asked for, that
    array, and the operator when the optimizer is built. *)
Definition lin_before_dual (gradient_op : GradientOp) (l : L) : L :=
  snd (l2norm (fourier_shape gradient_op) (lin_after_weights gradient_op l)).

Definition initial_dual (gradient_op : GradientOp) (l : L) : ndarray :=
  fill 0 (fst (op (np_zeros (fourier_shape gradient_op))
                 (lin_before_dual gradient_op l))).

Definition lin_at_start (gradient_op : GradientOp) (l : L) : L :=
  snd (op (np_zeros (fourier_shape gradient_op))
         (lin_before_dual gradient_op l)).

(** The arguments the optimizer is built with, given the dual proximity
    operator and the step sizes. *)
Definition first_condat_args (gradient_op : GradientOp) (l : L)
  (relaxation_factor : Q) (add_positivity : bool) (prox_dual_op : Threshold)
  (s : step_sizes) : Condat_args :=
  mkCondatArgs (np_zeros (fourier_shape gradient_op))
    (initial_dual gradient_op l) gradient_op
    (if add_positivity then Positive else Identity) prox_dual_op
    (mkDualGapCost 1000000 (1 # 10000) 1 4 0 None) relaxation_factor
    (st_sigma s) (st_tau s).

(** [k] single updates of the optimizer, each from the state the previous
    one left. *)
Definition updates (k : nat) (prox_dual_op : Threshold)
  (p : Condat_obj I * L) : Condat_obj I * L :=
  Nat.iter k (fun p => update prox_dual_op (fst p) (snd p)) p.

(** The optimizer and the linear operator when the first pass ends. *)
Definition first_pass_state (gradient_op : GradientOp) (l : L)
  (relaxation_factor : Q) (add_positivity : bool) (prox_dual_op : Threshold)
  (s : step_sizes) (max_nb_of_iter : Z) : Condat_obj I * L :=
  updates (Z.to_nat max_nb_of_iter) prox_dual_op
    (Condat (first_condat_args gradient_op l relaxation_factor
               add_positivity prox_dual_op s),
     lin_at_start gradient_op l).

(** The state one reweighting continuation hands to the next. *)
Record carried : Type := mkCarried {
  c_opt : Condat_obj I;
  c_strategy : R;
  c_lin : L
}.

(** (a) the strategy computes updated weights from the current solution. *)
Definition reweighted (primal : bool) (c : carried) : R * L :=
  if primal then
    (cwb_reweight (fst (op (x_new (c_opt c)) (c_lin c))) (c_strategy c),
     snd (op (x_new (c_opt c)) (c_lin c)))
  else
    (snd (fst (m_reweight (x_new (c_opt c)) (c_strategy c) (c_lin c))),
     snd (m_reweight (x_new (c_opt c)) (c_strategy c) (c_lin c))).

(** (b) these weights go into the dual proximity operator and (c) the
    iterator resumes, from the optimizer state carried over. *)
Definition continuation (primal : bool) (max_iter : Z) (c : carried)
  : carried :=
  let r := reweighted primal c in
  let o := iterate max_iter (mkThreshold (rw_weights (fst r))) (c_opt c)
             (snd r) in
  mkCarried (fst o) (fst r) (snd o).

(** What one continuation calls, in order. *)
Definition continuation_calls (primal : bool) (max_iter : Z) (c : carried)
  : list event :=
  (if primal
   then [EvLinearOp (x_new (c_opt c));
         EvReweight (fst (op (x_new (c_opt c)) (c_lin c)))]
   else [EvReweight (x_new (c_opt c))])
  ++ [EvSetWeights (rw_weights (fst (reweighted primal c)));
      EvIterate max_iter].

Fixpoint controller_calls (k : nat) (primal : bool) (max_iter : Z)
  (c : carried) : list event :=
  match k with
  | O => []
  | Datatypes.S k' =>
      continuation_calls primal max_iter c
      ++ controller_calls k' primal max_iter (continuation primal max_iter c)
  end.

End Driver.

(** ** Reading a trace *)

(** The calls on the optimizer and on the reweighting machinery, without
    their arguments. *)
Inductive call : Set :=
| CNew
| CUpdate
| CReweight
| CInstall
| CIterate (max_iter : Z).

Definition call_of (e : event) : option call :=
  match e with
  | EvNewCondat _ => Some CNew
  | EvUpdate _ => Some CUpdate
  | EvReweight _ => Some CReweight
  | EvSetWeights _ => Some CInstall
  | EvIterate n => Some (CIterate n)
  | _ => None
  end.

Fixpoint calls (t : list event) : list call :=
  match t with
  | [] => []
  | e :: t' =>
      match call_of e with
      | Some c => c :: calls t'
      | None => calls t'
      end
  end.

(** How many single updates ([opt.update()], line 205) were asked for. *)
Definition nb_updates (t : list event) : nat :=
  List.length
    (filter (fun c => match c with CUpdate => true | _ => false end)
       (calls t)).

(** The arguments of the optimizer's constructions. *)
Fixpoint condat_calls (t : list event) : list Condat_args :=
  match t with
  | [] => []
  | EvNewCondat a :: t' => a :: condat_calls t'
  | _ :: t' => condat_calls t'
  end.

(** The cost monitors built. *)
Fixpoint cost_calls (t : list event) : list DualGapCost :=
  match t with
  | [] => []
  | EvNewCost c :: t' => c :: cost_calls t'
  | _ :: t' => cost_calls t'
  end.

(** Events of the reweighting loop. *)
Definition is_reweighting (e : event) : bool :=
  match e with
  | EvReweight _ | EvSetWeights _ | EvIterate _ => true
  | _ => false
  end.

(** Events that allocate an array or do numerical work. *)
Definition is_work (e : event) : bool :=
  match e with
  | EvPrint _ _ | EvClock => false
  | _ => true
  end.

(** ** A small instance of the collaborators

    Identity transform, least-squares gradient step and a shrinking dual
    step: enough to run the driver on concrete inputs. *)

Module Toy.

Definition cadd (a b : complex) : complex :=
  mkC (Qred (re a + re b)) (Qred (im a + im b)).
Definition csub (a b : complex) : complex :=
  mkC (Qred (re a - re b)) (Qred (im a - im b)).
Definition cscale (k : Q) (a : complex) : complex :=
  mkC (Qred (k * re a)) (Qred (k * im a)).

Definition zip_with (f : complex -> complex -> complex) (a b : ndarray)
  : ndarray :=
  mkArray (shape a)
    (map (fun p => f (fst p) (snd p)) (combine (data a) (data b))).

(** The linear operator is the identity; its state is the coefficient
    array it holds. *)
#[global] Instance linear : LinearOperator ndarray ndarray := {|
  op := fun x l => (x, l);
  l2norm := fun _ l => (1, l);
  set_coeff := fun y _ => y;
  coeff := fun l => l
|}.

(** A strategy is its weight array; reweighting halves it (image-domain
    strategy) or refills it with a fifth of the threshold factor
    (coefficient-domain strategy). *)
#[global] Instance reweighting : Reweighting ndarray (ndarray * Q) := {|
  cwbReweight := fun w => (w, 1);
  mReweight := fun w thresh_factor => (w, thresh_factor);
  rw_weights := fst;
  cwb_reweight := fun _ r =>
    (mkArray (shape (fst r)) (map (cscale (1 # 2)) (data (fst r))), snd r);
  m_reweight := fun _ r l => (1 # 5, (fill (snd r * (1 # 5)) (fst r), snd r), l)
|}.

(** One update: a gradient step of the primal towards the data, then a
    dual step shrunk by the weights. *)
Definition step (prox_dual_op : Threshold) (o : Condat_obj Condat_args)
  : Condat_obj Condat_args :=
  let a := internals o in
  let x := zip_with (fun x d => cadd x (cscale (arg_tau a) (csub d x)))
             (x_new o) (grad_y (arg_grad a)) in
  let y := zip_with (fun y w => csub y w)
             (zip_with (fun y x => cadd y (cscale (arg_sigma a) x))
                (y_new o) x)
             (weights prox_dual_op) in
  mkCondat x y (x_final o) (y_final o) false a.

#[global] Instance optimizer : Optimizer ndarray Condat_args := {|
  Condat := fun a => mkCondat (arg_x a) (arg_y a) (arg_x a) (arg_y a) false a;
  update := fun pd o l => (step pd o, l);
  iterate := fun max_iter pd o l =>
    let o' := Nat.iter (Z.to_nat max_iter) (step pd) o in
    (mkCondat (x_new o') (y_new o') (x_new o') (y_new o') (converge o')
       (internals o'), l)
|}.

(** The noise estimate: the first entry's real part. *)
Definition sigma_mad (a : ndarray) : Q :=
  match data a with
  | [] => 0
  | c :: _ => re c
  end.

Definition gradient_op : GradientOp :=
  mkGradientOp [2%nat] 2 (mkArray [2%nat] [mkC 3 0; mkC 1 0]) (fun x => x).

Definition linear_op : ndarray := mkArray [] [].

(** A call on these collaborators, with the default threshold factor,
    regularization strength and relaxation. *)
Definition reconstruct (std_est : option Q)
  (std_est_method : option string)
  (tau sigma : option Q) (nb_of_reweights max_nb_of_iter : Z) (atol : Q)
  (verbose : Z) : outcome ndarray (ndarray * ndarray) :=
  sparse_rec_condatvu sigma_mad gradient_op linear_op std_est std_est_method
    2 (1 # 1000000) tau sigma 1 nb_of_reweights max_nb_of_iter false atol
    verbose.

End Toy.

(** ** Further readers and relations *)

(** The arrays the noise estimator was called on. *)
Fixpoint estimator_calls (t : list event) : list ndarray :=
  match t with
  | [] => []
  | EvSigmaMad x :: t' => x :: estimator_calls t'
  | _ :: t' => estimator_calls t'
  end.

(** Two outcomes that agree on the linear operator, on the calls made and,
    up to [Rv], on what is returned; an exception is the same on both
    sides. *)
Definition related {L A} (Rv : A -> A -> Prop) (o o' : outcome L A) : Prop :=
  lin o = lin o'
  /\ silent (trace o) = silent (trace o')
  /\ match res o, res o' with
     | Ok a, Ok a' => Rv a a'
     | Raise e, Raise e' => e = e'
     | _, _ => False
     end.

(** What the rest of the driver reads of the deriver's result: the noise
    estimate apart, which is only printed, and the reweighting count up to
    the iterations it stands for. *)
Definition same_derived {R} (d d' : derived R) : Prop :=
  d_reweight_op d = d_reweight_op d'
  /\ d_prox_dual_op d = d_prox_dual_op d'
  /\ Z.to_nat (d_nb_of_reweights d) = Z.to_nat (d_nb_of_reweights d').

(** Loop states that differ at most by the noise estimate. *)
Definition same_loop {R I} (s s' : loop_state R I) : Prop :=
  ls_opt s = ls_opt s'
  /\ ls_reweight_op s = ls_reweight_op s'
  /\ ls_prox_dual_op s = ls_prox_dual_op s'.

(** ** The checks of the binding tests (pysap/test/test_binding.py)

    The arrays compared are real images of one shape, given by their
    flattened entries. *)

Module Binding.

(** [numpy.isclose(a, b, atol=1e-8, rtol=1e-5)] on one entry:
    [|a - b| <= atol + rtol * |b|]. *)
Definition isclose (a b : Q) : bool :=
  Qle_bool (Qabs (a - b)) ((1 # 100000000) + (1 # 100000) * Qabs b).

(** Entrywise, on two arrays of one shape. *)
Fixpoint zip {A} (f : Q -> Q -> A) (a b : list Q) : list A :=
  match a, b with
  | x :: a', y :: b' => f x y :: zip f a' b'
  | _, _ => []
  end.

(** [numpy.mean] of a boolean array: the fraction of true entries. *)
Definition mean (bs : list bool) : Q :=
  inject_Z (Z.of_nat (count_occ bool_dec bs true))
  / inject_Z (Z.of_nat (List.length bs)).

(** [mismatch = 1. - numpy.mean(numpy.isclose(recim.data, image, ...))] *)
Definition mismatch (recim image : list Q) : Q :=
  1 - mean (zip isclose recim image).

(** [diff.all()]: no entry of the array is zero. *)
Definition all (diff : list Q) : bool :=
  forallb (fun x => negb (Qeq_bool x 0)) diff.

(** [diff = flt.data - image; self.assertFalse(diff.all())]: whether the
    assertion passes. *)
Definition outputs_accepted (data image : list Q) : bool :=
  negb (all (zip Qminus data image)).

End Binding.

(** * Facts *)

(** ** The monad *)

Section MonadFacts.

Variable L : Type.

Lemma outcome_eta A (o : outcome L A) :
  o = mkOutcome (res o) (lin o) (trace o).
Proof. now destruct o. Qed.

Lemma runs_bind A B (m : M L A) (f : A -> M L B) l a l1 t1 b l2 t2 :
  runs m l a l1 t1 -> runs (f a) l1 b l2 t2 ->
  runs (bind m f) l b l2 (t1 ++ t2).
Proof.
  unfold runs, bind. intros Hm Hf. rewrite Hm. cbn. now rewrite Hf.
Qed.

Lemma raises_bind A B (m : M L A) (f : A -> M L B) l a l1 t1 e l2 t2 :
  runs m l a l1 t1 -> f a l1 = mkOutcome (Raise e) l2 t2 ->
  bind m f l = mkOutcome (Raise e) l2 (t1 ++ t2).
Proof.
  unfold runs, bind. intros Hm Hf. rewrite Hm. cbn. now rewrite Hf.
Qed.

Lemma raises_first A B (m : M L A) (f : A -> M L B) l e l1 t1 :
  m l = mkOutcome (Raise e) l1 t1 ->
  bind m f l = mkOutcome (Raise e) l1 t1.
Proof.
  unfold bind. intros Hm. rewrite Hm. reflexivity.
Qed.

Lemma runs_res A (m : M L A) l a :
  res (m l) = Ok a -> runs m l a (lin (m l)) (trace (m l)).
Proof.
  unfold runs. intros H. rewrite <- H. apply outcome_eta.
Qed.

Lemma runs_inj A (m : M L A) l a l1 t1 b l2 t2 :
  runs m l a l1 t1 -> runs m l b l2 t2 -> a = b /\ l1 = l2 /\ t1 = t2.
Proof.
  unfold runs. intros H1 H2. rewrite H1 in H2. now inversion H2.
Qed.

Lemma chatter_print label v : chatter (L := L) (print label v).
Proof. intros l. split; reflexivity. Qed.

Lemma chatter_bind (m : M L unit) (k : M L unit) :
  chatter m -> chatter k -> chatter (bind m (fun _ => k)).
Proof.
  intros Hm Hk l. destruct (Hm l) as [Rm Pm], (Hk l) as [Rk Pk].
  pose proof (runs_bind (fun _ => k) Rm Rk) as Rb.
  split.
  - unfold runs in *. rewrite Rb. reflexivity.
  - unfold runs in Rb. rewrite Rb. cbn. unfold only_prints in *.
    rewrite forallb_app, Pm, Pk. reflexivity.
Qed.

Lemma runs_when v (m : M L unit) l :
  chatter m ->
  exists p, runs (when_verbose v m) l tt l p /\ only_prints p.
Proof.
  intros Hm. unfold when_verbose. destruct (0 <? v)%Z.
  - exists (trace (m l)). apply Hm.
  - exists []. split; reflexivity.
Qed.

End MonadFacts.

(** ** Reading traces *)

Lemma silent_app t1 t2 : silent (t1 ++ t2) = silent t1 ++ silent t2.
Proof. apply filter_app. Qed.

Lemma calls_app t1 t2 : calls (t1 ++ t2) = calls t1 ++ calls t2.
Proof.
  induction t1 as [|e t1 IH]; [reflexivity|].
  cbn. destruct (call_of e); cbn; now rewrite IH.
Qed.

Lemma condat_calls_app t1 t2 :
  condat_calls (t1 ++ t2) = condat_calls t1 ++ condat_calls t2.
Proof.
  induction t1 as [|e t1 IH]; [reflexivity|].
  destruct e; cbn; now rewrite IH.
Qed.

Lemma cost_calls_app t1 t2 :
  cost_calls (t1 ++ t2) = cost_calls t1 ++ cost_calls t2.
Proof.
  induction t1 as [|e t1 IH]; [reflexivity|].
  destruct e; cbn; now rewrite IH.
Qed.

Lemma only_prints_inv e t :
  only_prints (e :: t) -> is_print e = true /\ only_prints t.
Proof. unfold only_prints. cbn. apply andb_prop. Qed.

Lemma only_prints_silent t : only_prints t -> silent t = [].
Proof.
  induction t as [|e t IH]; [reflexivity|].
  intros H. apply only_prints_inv in H as [He Ht].
  unfold silent in *. cbn. rewrite He. cbn. now apply IH.
Qed.

Lemma only_prints_calls t : only_prints t -> calls t = [].
Proof.
  induction t as [|e t IH]; [reflexivity|].
  intros H. apply only_prints_inv in H as [He Ht].
  destruct e; try discriminate. cbn. now apply IH.
Qed.

Lemma only_prints_condat_calls t : only_prints t -> condat_calls t = [].
Proof.
  induction t as [|e t IH]; [reflexivity|].
  intros H. apply only_prints_inv in H as [He Ht].
  destruct e; try discriminate. cbn. now apply IH.
Qed.

Lemma only_prints_cost_calls t : only_prints t -> cost_calls t = [].
Proof.
  induction t as [|e t IH]; [reflexivity|].
  intros H. apply only_prints_inv in H as [He Ht].
  destruct e; try discriminate. cbn. now apply IH.
Qed.

Lemma calls_silent t : calls (silent t) = calls t.
Proof.
  induction t as [|e t IH]; [reflexivity|].
  unfold silent in *. destruct e; cbn; now rewrite ?IH.
Qed.

Lemma condat_calls_silent t : condat_calls (silent t) = condat_calls t.
Proof.
  induction t as [|e t IH]; [reflexivity|].
  unfold silent in *. destruct e; cbn; now rewrite ?IH.
Qed.

Lemma cost_calls_silent t : cost_calls (silent t) = cost_calls t.
Proof.
  induction t as [|e t IH]; [reflexivity|].
  unfold silent in *. destruct e; cbn; now rewrite ?IH.
Qed.

Lemma calls_updates w k : calls (repeat (EvUpdate w) k) = repeat CUpdate k.
Proof. induction k as [|k IH]; [reflexivity|]. cbn. now rewrite IH. Qed.

Lemma silent_updates w k :
  silent (repeat (EvUpdate w) k) = repeat (EvUpdate w) k.
Proof.
  induction k as [|k IH]; [reflexivity|].
  unfold silent in *. cbn. now rewrite IH.
Qed.

Lemma condat_calls_updates w k : condat_calls (repeat (EvUpdate w) k) = [].
Proof. induction k as [|k IH]; [reflexivity|]. exact IH. Qed.

Lemma cost_calls_updates w k : cost_calls (repeat (EvUpdate w) k) = [].
Proof. induction k as [|k IH]; [reflexivity|]. exact IH. Qed.

Lemma In_calls e c t : In e t -> call_of e = Some c -> In c (calls t).
Proof.
  induction t as [|e' t IH]; [contradiction|].
  intros [->|H] Hc; cbn.
  - rewrite Hc. now left.
  - destruct (call_of e'); [right|]; now apply IH.
Qed.

Lemma no_update_without_call w t :
  ~ In CUpdate (calls t) -> ~ In (EvUpdate w) t.
Proof.
  intros H Hw. apply H. exact (@In_calls _ CUpdate t Hw eq_refl).
Qed.

Lemma no_update_among_passes k max :
  ~ In CUpdate (List.concat (repeat [CReweight; CInstall; CIterate max] k)).
Proof.
  induction k as [|k IH]; [intros []|].
  cbn. intros [H|[H|[H|H]]]; try discriminate. now apply IH.
Qed.

(** ** Outcomes up to printing *)

Section QuietFacts.

Variable L : Type.

Lemma same_refl A (o : outcome L A) : same_but_prints o o.
Proof. repeat split. Qed.

Lemma same_bind A B (m m' : M L A) (f f' : A -> M L B) :
  (forall l, same_but_prints (m l) (m' l)) ->
  (forall a l, same_but_prints (f a l) (f' a l)) ->
  forall l, same_but_prints (bind m f l) (bind m' f' l).
Proof.
  intros Hm Hf l. destruct (Hm l) as (Hr & Hl & Ht).
  unfold bind. rewrite <- Hr, <- Hl.
  destruct (res (m l)) as [a|e].
  - destruct (Hf a (lin (m l))) as (Hr' & Hl' & Ht').
    repeat split; cbn [res lin trace]; try assumption.
    rewrite !silent_app. now rewrite Ht, Ht'.
  - repeat split; cbn [res lin trace]. exact Ht.
Qed.

Lemma same_when v v' (m m' : M L unit) :
  chatter m -> chatter m' ->
  forall l, same_but_prints (when_verbose v m l) (when_verbose v' m' l).
Proof.
  intros Hm Hm' l.
  destruct (runs_when v l Hm) as (p & Rp & Pp).
  destruct (runs_when v' l Hm') as (p' & Rp' & Pp').
  unfold runs in Rp, Rp'. rewrite Rp, Rp'.
  repeat split; cbn [trace].
  now rewrite (only_prints_silent Pp), (only_prints_silent Pp').
Qed.

Lemma same_for_from S (body body' : Z -> S -> M L S) :
  (forall i s l, same_but_prints (body i s l) (body' i s l)) ->
  forall k i s l,
    same_but_prints (for_from k i body s l) (for_from k i body' s l).
Proof.
  intros Hb k. induction k as [|k IH]; intros i s l.
  - apply same_refl.
  - cbn [for_from]. apply same_bind; [intros; apply Hb|].
    intros a l'. apply IH.
Qed.

End QuietFacts.

(** ** The driver's stages *)

Section DriverFacts.

Variables L C R I : Type.
Context {linear : LinearOperator L C}.
Context {reweighting : Reweighting L R}.
Context {optimizer : Optimizer L I}.
Variable sigma_mad : ndarray -> Q.

Ltac step := eapply runs_bind; [reflexivity|].

(** *** Estimation mode *)

Lemma known_method_cases m :
  known_method m = true ->
  m = None \/ m = Some "primal"%string \/ m = Some "dual"%string.
Proof.
  destruct m as [s|]; [|now left]. cbn. intros H.
  apply orb_prop in H as [H|H]; apply String.eqb_eq in H; subst; auto.
Qed.

Lemma known_method_iff m :
  known_method m = true <->
  m = None \/ m = Some "primal"%string \/ m = Some "dual"%string.
Proof.
  split; [apply known_method_cases|].
  intros [->|[->| ->]]; reflexivity.
Qed.

(** *** Parameter derivation *)

Lemma deriver_manual g se m thr mu nrw l :
  is_method m "primal" = false -> is_method m "dual" = false ->
  runs (parameter_deriver sigma_mad g se m thr mu nrw) l
    (mkDerived se None
       (mkThreshold
          (fill mu (fst (op (np_zeros (fourier_shape g)) l)))) 0%Z)
    (lin_after_weights g l)
    [EvZeros (fourier_shape g); EvLinearOp (np_zeros (fourier_shape g))].
Proof.
  intros Hp Hd. unfold parameter_deriver.
  change [EvZeros (fourier_shape g); EvLinearOp (np_zeros (fourier_shape g))]
    with ([EvZeros (fourier_shape g)]
          ++ [EvLinearOp (np_zeros (fourier_shape g))] ++ []).
  step. step. rewrite Hp, Hd. reflexivity.
Qed.

(** The noise level of the primal mode: the caller's, or the estimator's on
    the adjoint-applied data. *)
Lemma deriver_primal g se m thr mu nrw l :
  is_method m "primal" = true ->
  let std := match se with
             | Some s => s
             | None => sigma_mad (MtX g (grad_y g))
             end in
  let w := fill (thr * std) (fst (op (np_zeros (fourier_shape g)) l)) in
  runs (parameter_deriver sigma_mad g se m thr mu nrw) l
    (mkDerived (Some std) (Some (cwbReweight w))
       (mkThreshold (rw_weights (cwbReweight w))) nrw)
    (lin_after_weights g l)
    ([EvZeros (fourier_shape g); EvLinearOp (np_zeros (fourier_shape g))]
     ++ match se with
        | Some _ => []
        | None => [EvMtX (grad_y g); EvSigmaMad (MtX g (grad_y g))]
        end
     ++ [EvNewReweight "cwbReweight" w]).
Proof.
  intros Hp std w. unfold parameter_deriver.
  change [EvZeros (fourier_shape g); EvLinearOp (np_zeros (fourier_shape g))]
    with ([EvZeros (fourier_shape g)]
          ++ [EvLinearOp (np_zeros (fourier_shape g))]).
  rewrite <- !app_assoc.
  step. step. rewrite Hp.
  eapply runs_bind with (a := std).
  { subst std. destruct se; reflexivity. }
  change [EvNewReweight "cwbReweight" w]
    with ([EvNewReweight "cwbReweight" w] ++ []).
  step. reflexivity.
Qed.

Lemma deriver_dual g se m thr mu nrw l :
  is_method m "primal" = false -> is_method m "dual" = true ->
  let std := match se with
             | Some s => s
             | None => 0
             end in
  let w := fill (thr * std) (fst (op (np_zeros (fourier_shape g)) l)) in
  runs (parameter_deriver sigma_mad g se m thr mu nrw) l
    (mkDerived (Some std) (Some (mReweight w thr))
       (mkThreshold (rw_weights (mReweight w thr))) nrw)
    (lin_after_weights g l)
    [EvZeros (fourier_shape g); EvLinearOp (np_zeros (fourier_shape g));
     EvNewReweight "mReweight" w].
Proof.
  intros Hp Hd std w. unfold parameter_deriver.
  change [EvZeros (fourier_shape g); EvLinearOp (np_zeros (fourier_shape g));
          EvNewReweight "mReweight" w]
    with ([EvZeros (fourier_shape g)]
          ++ [EvLinearOp (np_zeros (fourier_shape g))]
          ++ [EvNewReweight "mReweight" w] ++ []).
  step. step. rewrite Hp, Hd. step. reflexivity.
Qed.

(** The deriver always returns; what it logs concerns neither the optimizer
    nor the reweighting loop. *)
Lemma deriver_runs g se m thr mu nrw l :
  exists d td,
    runs (parameter_deriver sigma_mad g se m thr mu nrw) l d
      (lin_after_weights g l) td
    /\ silent td = td /\ calls td = [] /\ condat_calls td = []
    /\ cost_calls td = [] /\ filter is_reweighting td = []
    /\ Z.to_nat (d_nb_of_reweights d) = effective_reweights m nrw
    /\ (effective_reweights m nrw = O \/ exists r, d_reweight_op d = Some r).
Proof.
  unfold effective_reweights.
  destruct (is_method m "primal") eqn:Hp; [|destruct (is_method m "dual") eqn:Hd].
  - do 2 eexists. split; [apply deriver_primal; exact Hp|].
    cbn [d_nb_of_reweights d_reweight_op orb].
    destruct se; repeat split; try reflexivity; right; eexists; reflexivity.
  - do 2 eexists. split; [apply deriver_dual; assumption|].
    cbn [d_nb_of_reweights d_reweight_op orb].
    repeat split; try reflexivity; right; eexists; reflexivity.
  - do 2 eexists. split; [apply deriver_manual; assumption|].
    cbn [d_nb_of_reweights d_reweight_op orb].
    repeat split; try reflexivity. now left.
Qed.

(** *** First pass *)

Lemma first_pass_runs k i pd o l :
  runs (for_from k i (fun _ o => opt_update pd o) o) l
    (fst (updates k pd (o, l))) (snd (updates k pd (o, l)))
    (repeat (EvUpdate (weights pd)) k).
Proof.
  revert i o l. induction k as [|k IH]; intros i o l.
  - reflexivity.
  - cbn [for_from]. unfold updates. rewrite Nat.iter_succ_r.
    change (repeat (EvUpdate (weights pd)) (S k))
      with ([EvUpdate (weights pd)] ++ repeat (EvUpdate (weights pd)) k).
    step.
    specialize (IH (i + 1)%Z (fst (update pd o l)) (snd (update pd o l))).
    unfold updates in IH. rewrite <- surjective_pairing in IH. exact IH.
Qed.

(** *** Reweighting loop *)

Lemma reweighting_pass_runs m max v i o r se pd l :
  let primal := is_method m "primal" in
  let c := mkCarried o r l in
  let c' := continuation primal max c in
  exists se' t,
    runs (reweighting_pass m max v i (mkLoop o (Some r) se pd)) l
      (mkLoop (c_opt c') (Some (c_strategy c')) se'
         (mkThreshold (rw_weights (c_strategy c'))))
      (c_lin c') t
    /\ silent t = continuation_calls primal max c.
Proof.
  intros primal c c'. unfold reweighting_pass. cbn [ls_reweight_op ls_opt ls_std_est].
  destruct (runs_when v (m := (print " - reweight: " (PInt (i + 1)) ;;
         print " - std: " (POptFloat (if primal then se else Some (fst (fst (m_reweight (x_new o) r l))))))%py)
     (snd (reweighted primal c))) as (p & Rp & Pp).
  { apply chatter_bind; apply chatter_print. }
  subst c'. unfold continuation, reweighted in *. subst primal.
  destruct (is_method m "primal"); cbn [c_opt c_strategy c_lin fst snd] in *.
  - do 2 eexists. split.
    + eapply runs_bind. { step. step. reflexivity. }
      cbn [fst snd].
      eapply runs_bind. { exact Rp. }
      step. step. reflexivity.
    + unfold continuation_calls. subst c. cbn [c_opt c_strategy c_lin fst snd reweighted].
      rewrite !silent_app, (only_prints_silent Pp). reflexivity.
  - do 2 eexists. split.
    + eapply runs_bind. { step. reflexivity. }
      cbn [fst snd].
      eapply runs_bind. { exact Rp. }
      step. step. reflexivity.
    + unfold continuation_calls. subst c. cbn [c_opt c_strategy c_lin fst snd reweighted].
      rewrite !silent_app, (only_prints_silent Pp). reflexivity.
Qed.

Lemma carried_eta (c : carried L R I) :
  mkCarried (c_opt c) (c_strategy c) (c_lin c) = c.
Proof. now destruct c. Qed.

Lemma controller_runs m max v k : forall i o r se pd l,
  let primal := is_method m "primal" in
  let c := Nat.iter k (continuation primal max) (mkCarried o r l) in
  exists se' pd' t,
    runs (for_from k i (reweighting_pass m max v) (mkLoop o (Some r) se pd)) l
      (mkLoop (c_opt c) (Some (c_strategy c)) se' pd') (c_lin c) t
    /\ silent t = controller_calls k primal max (mkCarried o r l).
Proof.
  induction k as [|k IH]; intros i o r se pd l primal c.
  - exists se, pd, []. split; reflexivity.
  - destruct (reweighting_pass_runs m max v i o r se pd l) as (se1 & t1 & R1 & S1).
    fold primal in R1, S1.
    set (c1 := continuation primal max (mkCarried o r l)) in *.
    destruct (IH (i + 1)%Z (c_opt c1) (c_strategy c1) se1
                (mkThreshold (rw_weights (c_strategy c1))) (c_lin c1))
      as (se2 & pd2 & t2 & R2 & S2).
    fold primal in R2, S2.
    exists se2, pd2, (t1 ++ t2). split.
    + cbn [for_from]. eapply runs_bind; [exact R1|].
      subst c. rewrite Nat.iter_succ_r. fold c1.
      rewrite carried_eta in R2. exact R2.
    + rewrite silent_app, S1, S2. cbn [controller_calls].
      fold c1. now rewrite carried_eta.
Qed.

Lemma calls_controller k primal max c :
  calls (controller_calls k primal max c)
  = List.concat (repeat [CReweight; CInstall; CIterate max] k).
Proof.
  revert c. induction k as [|k IH]; intros c; [reflexivity|].
  cbn [controller_calls repeat List.concat]. rewrite calls_app, IH.
  unfold continuation_calls. now destruct primal.
Qed.

Lemma condat_calls_controller k primal max (c : carried L R I) :
  condat_calls (controller_calls k primal max c) = [].
Proof.
  revert c. induction k as [|k IH]; intros c; [reflexivity|].
  cbn [controller_calls]. rewrite condat_calls_app, IH.
  unfold continuation_calls. now destruct primal.
Qed.

Lemma cost_calls_controller k primal max (c : carried L R I) :
  cost_calls (controller_calls k primal max c) = [].
Proof.
  revert c. induction k as [|k IH]; intros c; [reflexivity|].
  cbn [controller_calls]. rewrite cost_calls_app, IH.
  unfold continuation_calls. now destruct primal.
Qed.

(** The reweighting loop on what the deriver returned: it runs, passes are
    as many as the count in force, and each is a continuation. *)
Lemma controller_of_derived m nrw n v (d : derived R) o l :
  Z.to_nat (d_nb_of_reweights d) = effective_reweights m nrw ->
  (effective_reweights m nrw = O \/ exists r, d_reweight_op d = Some r) ->
  exists st l4 tp,
    runs (for_range (d_nb_of_reweights d) (reweighting_pass m n v)
            (mkLoop o (d_reweight_op d) (d_std_est d) (d_prox_dual_op d)))
      l st l4 tp
    /\ calls tp
       = List.concat (repeat [CReweight; CInstall; CIterate n]
                        (effective_reweights m nrw))
    /\ condat_calls tp = [] /\ cost_calls tp = []
    /\ match d_reweight_op d with
       | Some r =>
           let c := Nat.iter (effective_reweights m nrw)
                      (continuation (is_method m "primal") n)
                      (mkCarried o r l) in
           ls_opt st = c_opt c /\ l4 = c_lin c
           /\ silent tp
              = controller_calls (effective_reweights m nrw)
                  (is_method m "primal") n (mkCarried o r l)
       | None => ls_opt st = o /\ l4 = l /\ tp = []
       end.
Proof.
  intros Hn Hr. unfold for_range. rewrite Hn.
  destruct (d_reweight_op d) as [r|] eqn:Hd.
  - destruct (controller_runs m n v (effective_reweights m nrw) 0%Z o r
                (d_std_est d) (d_prox_dual_op d) l)
      as (se' & pd' & t & Rt & St).
    do 3 eexists. split; [exact Rt|].
    rewrite <- (calls_silent t), <- (condat_calls_silent t),
      <- (cost_calls_silent t), St.
    rewrite calls_controller, condat_calls_controller, cost_calls_controller.
    cbn [ls_opt]. repeat split; reflexivity.
  - destruct Hr as [Hr|[r Hr]]; [|discriminate].
    rewrite Hr. exists (mkLoop o None (d_std_est d) (d_prox_dual_op d)), l, [].
    repeat split; reflexivity.
Qed.

(** *** The whole run *)

(** A call whose mode is recognised and whose step sizes can be computed
    returns: its outcome, from what the deriver and the reweighting loop
    give. *)
Lemma driver_runs (g : GradientOp) (l : L) se m thr mu tau sigma rf nrw n
  (pos : bool) (atol : Q) v d td s st l4 tp :
  known_method m = true ->
  runs (parameter_deriver sigma_mad g se m thr mu nrw) l d
    (lin_after_weights g l) td ->
  step_size_selector (spec_rad g) (measured_norm g l) sigma tau = Ok s ->
  let shp := fourier_shape g in
  let cost := mkDualGapCost 1000000 (1 # 10000) 1 4 0 None in
  let a := mkCondatArgs (np_zeros shp) (initial_dual g l) g
             (if pos then Positive else Identity) (d_prox_dual_op d) cost rf
             (st_sigma s) (st_tau s) in
  let p := updates (Z.to_nat n) (d_prox_dual_op d)
             (Condat a, lin_at_start g l) in
  runs (for_range (d_nb_of_reweights d) (reweighting_pass m n v)
          (mkLoop (publish (fst p)) (d_reweight_op d) (d_std_est d)
             (d_prox_dual_op d)))
    (snd p) st l4 tp ->
  exists p1 p2 p3 p4,
    only_prints p1 /\ only_prints p2 /\ only_prints p3 /\ only_prints p4
    /\ sparse_rec_condatvu sigma_mad g l se m thr mu tau sigma rf nrw n pos
         atol v
       = mkOutcome
           (Ok (x_final (ls_opt st),
                coeff (set_coeff (y_final (ls_opt st)) l4)))
           (set_coeff (y_final (ls_opt st)) l4)
           (p1 ++ EvClock :: td
            ++ EvL2norm shp :: EvZeros shp :: EvLinearOp (np_zeros shp) :: p2
            ++ EvNewCost cost :: EvNewCondat a :: p3
            ++ repeat (EvUpdate (weights (d_prox_dual_op d))) (Z.to_nat n)
            ++ tp
            ++ EvClock :: p4 ++ [EvSetCoeff (y_final (ls_opt st))]).
Proof.
  intros Hm Rd Hs shp cost a p Rc.
  destruct (runs_when v (m := print "condatvu_logo" PNothing) l)
    as (p1 & R1 & P1); [apply chatter_print|].
  destruct (runs_when v
              (m := welcome g mu rf (d_std_est d) s n (d_nb_of_reweights d)
                      (np_zeros shp) (initial_dual g l))
              (lin_at_start g l))
    as (p2 & R2 & P2).
  { unfold welcome. repeat (apply chatter_bind; [apply chatter_print|]).
    apply chatter_print. }
  destruct (runs_when v (m := print "Starting optimization..." PNothing)
              (lin_at_start g l))
    as (p3 & R3 & P3); [apply chatter_print|].
  destruct (runs_when v (m := goodbye (ls_opt st)) l4) as (p4 & R4 & P4).
  { unfold goodbye. repeat (apply chatter_bind; [apply chatter_print|]).
    apply chatter_print. }
  exists p1, p2, p3, p4. repeat (split; [assumption|]).
  unfold sparse_rec_condatvu.
  match goal with
  | |- ?body l = mkOutcome (Ok ?r) ?l' ?t =>
      enough (E : exists t', runs body l r l' t' /\ t' = t)
        by (destruct E as (t' & Rt & <-); exact Rt)
  end.
  eexists. split.
  - eapply runs_bind; [exact R1|]. step.
    rewrite Hm. cbn [negb].
    eapply runs_bind; [exact Rd|]. step.
    eapply runs_bind.
    { unfold lift. fold (lin_before_dual g l). fold (measured_norm g l).
      rewrite Hs. reflexivity. }
    step. step.
    eapply runs_bind; [exact R2|]. step. step.
    eapply runs_bind; [exact R3|].
    eapply runs_bind; [apply first_pass_runs|].
    eapply runs_bind; [exact Rc|]. step.
    eapply runs_bind; [exact R4|]. step. step. reflexivity.
  - cbn [app]. reflexivity.
Qed.

(** A call whose mode is not recognised raises at once. *)
Lemma driver_rejects (g : GradientOp) (l : L) se m thr mu tau sigma rf nrw n
  (pos : bool) (atol : Q) v :
  known_method m = false ->
  exists p1,
    only_prints p1
    /\ sparse_rec_condatvu sigma_mad g l se m thr mu tau sigma rf nrw n pos
         atol v
       = mkOutcome (Raise (ValueError (unrecognized m))) l (p1 ++ [EvClock]).
Proof.
  intros Hm.
  destruct (runs_when v (m := print "condatvu_logo" PNothing) l)
    as (p1 & R1 & P1); [apply chatter_print|].
  exists p1. split; [exact P1|].
  unfold sparse_rec_condatvu.
  eapply raises_bind; [exact R1|].
  change [EvClock] with ([EvClock] ++ []).
  eapply raises_bind; [reflexivity|].
  rewrite Hm. reflexivity.
Qed.

(** A call whose step sizes cannot be computed raises before the optimizer
    is built. *)
Lemma driver_raises (g : GradientOp) (l : L) se m thr mu tau sigma rf nrw n
  (pos : bool) (atol : Q) v e :
  known_method m = true ->
  step_size_selector (spec_rad g) (measured_norm g l) sigma tau = Raise e ->
  exists p1 td,
    only_prints p1 /\ silent td = td /\ calls td = []
    /\ filter is_reweighting td = []
    /\ sparse_rec_condatvu sigma_mad g l se m thr mu tau sigma rf nrw n pos
         atol v
       = mkOutcome (Raise e) (lin_before_dual g l)
           (p1 ++ EvClock :: td ++ [EvL2norm (fourier_shape g)]).
Proof.
  intros Hm Hs.
  destruct (runs_when v (m := print "condatvu_logo" PNothing) l)
    as (p1 & R1 & P1); [apply chatter_print|].
  destruct (deriver_runs g se m thr mu nrw l)
    as (d & td & Rd & Sd & Cd & _ & _ & Fd & _).
  exists p1, td. repeat (split; [assumption|]).
  unfold sparse_rec_condatvu.
  eapply raises_bind; [exact R1|].
  change (EvClock :: td ++ [EvL2norm (fourier_shape g)])
    with ([EvClock] ++ td ++ [EvL2norm (fourier_shape g)] ++ []).
  eapply raises_bind; [reflexivity|].
  rewrite Hm. cbn [negb].
  eapply raises_bind; [exact Rd|].
  eapply raises_bind; [reflexivity|].
  apply raises_first. unfold lift. cbn [fst snd].
  fold (lin_before_dual g l). fold (measured_norm g l).
  rewrite Hs. reflexivity.
Qed.

Lemma step_size_selector_raises lip norm sigma tau e :
  step_size_selector lip norm sigma tau = Raise e -> e = ZeroDivisionError.
Proof.
  unfold step_size_selector, select_tau, convergence_test, fdiv.
  destruct tau as [t|].
  - destruct (Qeq_bool t 0); intros H; now inversion H.
  - destruct (Qeq_bool _ 0); [intros H; now inversion H|].
    destruct (Qeq_bool _ 0); intros H; now inversion H.
Qed.

(** What a returning call did, read off its trace. *)
Lemma run_summary (g : GradientOp) (l : L) se m thr mu tau sigma rf nrw n
  (pos : bool) (atol : Q) v s :
  known_method m = true ->
  step_size_selector (spec_rad g) (measured_norm g l) sigma tau = Ok s ->
  exists d td st l4 tp t,
    runs (parameter_deriver sigma_mad g se m thr mu nrw) l d
      (lin_after_weights g l) td
    /\ (let p := first_pass_state g l rf pos (d_prox_dual_op d) s n in
        runs (for_range (d_nb_of_reweights d) (reweighting_pass m n v)
                (mkLoop (publish (fst p)) (d_reweight_op d) (d_std_est d)
                   (d_prox_dual_op d)))
          (snd p) st l4 tp
        /\ match d_reweight_op d with
           | Some r =>
               let c := Nat.iter (effective_reweights m nrw)
                          (continuation (is_method m "primal") n)
                          (mkCarried (publish (fst p)) r (snd p)) in
               ls_opt st = c_opt c /\ l4 = c_lin c
               /\ silent tp
                  = controller_calls (effective_reweights m nrw)
                      (is_method m "primal") n
                      (mkCarried (publish (fst p)) r (snd p))
           | None => ls_opt st = publish (fst p) /\ l4 = snd p /\ tp = []
           end)
    /\ sparse_rec_condatvu sigma_mad g l se m thr mu tau sigma rf nrw n pos
         atol v
       = mkOutcome
           (Ok (x_final (ls_opt st),
                coeff (set_coeff (y_final (ls_opt st)) l4)))
           (set_coeff (y_final (ls_opt st)) l4) t
    /\ calls t
       = CNew :: repeat CUpdate (Z.to_nat n)
         ++ List.concat (repeat [CReweight; CInstall; CIterate n]
                           (effective_reweights m nrw))
    /\ condat_calls t = [first_condat_args g l rf pos (d_prox_dual_op d) s]
    /\ cost_calls t = [mkDualGapCost 1000000 (1 # 10000) 1 4 0 None]
    /\ (exists t', t = t' ++ [EvSetCoeff (y_final (ls_opt st))])
    /\ (forall w, In (EvUpdate w) t -> w = weights (d_prox_dual_op d))
    /\ silent t
       = EvClock :: td
         ++ EvL2norm (fourier_shape g) :: EvZeros (fourier_shape g)
            :: EvLinearOp (np_zeros (fourier_shape g))
            :: EvNewCost (mkDualGapCost 1000000 (1 # 10000) 1 4 0 None)
            :: EvNewCondat
                 (first_condat_args g l rf pos (d_prox_dual_op d) s)
            :: repeat (EvUpdate (weights (d_prox_dual_op d))) (Z.to_nat n)
         ++ silent tp ++ [EvClock; EvSetCoeff (y_final (ls_opt st))].
Proof.
  intros Hm Hs.
  destruct (deriver_runs g se m thr mu nrw l)
    as (d & td & Rd & Sd & Cd & Ad & Kd & Fd & Nd & Od).
  destruct (controller_of_derived m nrw n v d
              (publish (fst (first_pass_state g l rf pos (d_prox_dual_op d)
                               s n)))
              (snd (first_pass_state g l rf pos (d_prox_dual_op d) s n))
              Nd Od)
    as (st & l4 & tp & Rc & Cc & Ac & Kc & Closed).
  destruct (@driver_runs g l se m thr mu tau sigma rf nrw n pos atol v d td s
              st l4 tp Hm Rd Hs Rc)
    as (p1 & p2 & p3 & p4 & P1 & P2 & P3 & P4 & E).
  exists d, td, st, l4, tp. eexists.
  split; [exact Rd|]. split; [split; [exact Rc|exact Closed]|].
  split; [exact E|].
  repeat split.
  - repeat (first [rewrite calls_app | progress cbn [calls call_of]]).
    rewrite (only_prints_calls P1), (only_prints_calls P2),
      (only_prints_calls P3), (only_prints_calls P4), Cd, Cc, calls_updates.
    cbn [app]. now rewrite app_nil_r.
  - repeat (first [rewrite condat_calls_app | progress cbn [condat_calls]]).
    rewrite (only_prints_condat_calls P1), (only_prints_condat_calls P2),
      (only_prints_condat_calls P3), (only_prints_condat_calls P4), Ad, Ac,
      condat_calls_updates.
    reflexivity.
  - repeat (first [rewrite cost_calls_app | progress cbn [cost_calls]]).
    rewrite (only_prints_cost_calls P1), (only_prints_cost_calls P2),
      (only_prints_cost_calls P3), (only_prints_cost_calls P4), Kd, Kc,
      cost_calls_updates.
    reflexivity.
  - eexists. rewrite !app_comm_cons, !app_assoc. reflexivity.
  - intros w Hw.
    repeat (apply in_app_or in Hw as [Hw|Hw] || destruct Hw as [Hw|Hw]);
      try discriminate Hw;
      try (apply repeat_spec in Hw; now inversion Hw);
      try (now cbn in Hw);
      exfalso; revert Hw; apply no_update_without_call;
      rewrite ?(only_prints_calls P1), ?(only_prints_calls P2),
        ?(only_prints_calls P3), ?(only_prints_calls P4), ?Cd, ?Cc;
      first [intros [] | apply no_update_among_passes].
  - repeat (first [rewrite silent_app | progress cbn [silent filter is_print negb app]]).
    fold (silent p1) (silent p2) (silent p3) (silent p4) (silent td)
      (silent tp).
    rewrite (only_prints_silent P1), (only_prints_silent P2),
      (only_prints_silent P3), (only_prints_silent P4), Sd.
    fold (silent (repeat (EvUpdate (weights (d_prox_dual_op d))) (Z.to_nat n))).
    rewrite silent_updates. reflexivity.
Qed.

(** *** Verbosity *)

Lemma chatter_welcome g mu rf se s n nrw primal dual :
  chatter (L := L) (welcome g mu rf se s n nrw primal dual).
Proof.
  unfold welcome. repeat (apply chatter_bind; [apply chatter_print|]).
  apply chatter_print.
Qed.

Lemma chatter_goodbye (o : Condat_obj I) : chatter (L := L) (goodbye o).
Proof.
  unfold goodbye. repeat (apply chatter_bind; [apply chatter_print|]).
  apply chatter_print.
Qed.

Lemma same_pass m max v v' i (s : loop_state R I) (l : L) :
  same_but_prints (reweighting_pass m max v i s l)
    (reweighting_pass m max v' i s l).
Proof.
  unfold reweighting_pass. destruct (ls_reweight_op s); [|apply same_refl].
  apply same_bind; [intros; apply same_refl|]. intros r' l1.
  apply same_bind.
  { apply same_when; apply chatter_bind; apply chatter_print. }
  intros. apply same_refl.
Qed.

Lemma same_run (g : GradientOp) (l : L) se m thr mu tau sigma rf nrw n
  (pos : bool) (atol : Q) v v' :
  same_but_prints
    (sparse_rec_condatvu sigma_mad g l se m thr mu tau sigma rf nrw n pos
       atol v)
    (sparse_rec_condatvu sigma_mad g l se m thr mu tau sigma rf nrw n pos
       atol v').
Proof.
  unfold sparse_rec_condatvu.
  apply same_bind; [apply same_when; apply chatter_print|]. intros _ l0.
  apply same_bind; [intros; apply same_refl|]. intros _ l1.
  destruct (negb (known_method m)); [apply same_refl|].
  apply same_bind; [intros; apply same_refl|]. intros d l2.
  apply same_bind; [intros; apply same_refl|]. intros norm l3.
  apply same_bind; [intros; apply same_refl|]. intros s l4.
  apply same_bind; [intros; apply same_refl|]. intros primal l5.
  apply same_bind; [intros; apply same_refl|]. intros dual l6.
  apply same_bind; [apply same_when; apply chatter_welcome|]. intros _ l7.
  apply same_bind; [intros; apply same_refl|]. intros cost_op l8.
  apply same_bind; [intros; apply same_refl|]. intros opt l9.
  apply same_bind; [apply same_when; apply chatter_print|]. intros _ l10.
  apply same_bind; [intros; apply same_refl|]. intros opt1 l11.
  apply same_bind.
  { intros l'. unfold for_range. apply same_for_from.
    intros. apply same_pass. }
  intros st l12.
  apply same_bind; [intros; apply same_refl|]. intros _ l13.
  apply same_bind; [apply same_when; apply chatter_goodbye|]. intros _ l14.
  apply same_refl.
Qed.

End DriverFacts.

(** ** Step sizes *)

Lemma fdiv_ok a b : ~ b == 0 -> fdiv a b = Ok (a / b).
Proof.
  intros Hb. unfold fdiv. destruct (Qeq_bool b 0) eqn:E; [|reflexivity].
  apply Qeq_bool_iff in E. contradiction.
Qed.

Lemma fdiv_zero a b : b == 0 -> fdiv a b = Raise ZeroDivisionError.
Proof.
  intros Hb. unfold fdiv. apply Qeq_bool_iff in Hb. now rewrite Hb.
Qed.

Lemma convergence_test_ok tau sigma norm lip :
  ~ tau == 0 ->
  convergence_test tau sigma norm lip
  = Ok (Qle_bool (lip / 2) (1 / tau - sigma * norm ^ 2)).
Proof.
  intros Ht. unfold convergence_test. now rewrite (fdiv_ok 1 Ht).
Qed.

Lemma step_sizes_supplied lip norm sigma t :
  ~ t == 0 ->
  step_size_selector lip norm sigma (Some t)
  = Ok (mkSteps (select_sigma sigma) t
          (Qle_bool (lip / 2) (1 / t - select_sigma sigma * norm ^ 2))).
Proof.
  intros Ht. unfold step_size_selector, select_tau.
  now rewrite (convergence_test_ok _ _ _ Ht).
Qed.

Lemma Qinv_nonzero d : ~ d == 0 -> ~ 1 / d == 0.
Proof.
  intros Hd H. apply Hd.
  assert (E : d * (1 / d) == 1) by (field; exact Hd).
  rewrite H in E. ring_simplify in E. discriminate E.
Qed.

Lemma step_sizes_derived lip norm sigma :
  let d := lip / 2 + select_sigma sigma * norm ^ 2 + eps in
  ~ d == 0 ->
  step_size_selector lip norm sigma None
  = Ok (mkSteps (select_sigma sigma) (1 / d)
          (Qle_bool (lip / 2) (1 / (1 / d) - select_sigma sigma * norm ^ 2))).
Proof.
  intros d Hd. unfold step_size_selector, select_tau. fold d.
  rewrite (fdiv_ok 1 Hd).
  now rewrite (convergence_test_ok _ _ _ (Qinv_nonzero Hd)).
Qed.

Lemma certificate_example t :
  convergence_test t (1 # 2) 1 2 = Ok true <-> 0 < t /\ t <= 2 # 3.
Proof.
  destruct (Qeq_dec t 0) as [Ht|Ht].
  - unfold convergence_test. rewrite (fdiv_zero 1 Ht). split.
    + discriminate.
    + intros [H _]. rewrite Ht in H. discriminate H.
  - rewrite (convergence_test_ok _ _ _ Ht).
    assert (E : t * (1 / t) == 1) by (field; exact Ht).
    set (i := 1 / t) in *. split.
    + intros H. inversion H as [H'].
      apply Qle_bool_iff in H'.
      assert (Hi : 3 # 2 <= i).
      { setoid_replace (3 # 2) with (2 / 2 + (1 # 2) * 1 ^ 2) by reflexivity.
        lra. }
      split; nra.
    + intros [H0 H1]. f_equal. apply Qle_bool_iff.
      setoid_replace (2 / 2) with 1 by reflexivity.
      setoid_replace ((1 # 2) * 1 ^ 2) with (1 # 2) by reflexivity.
      nra.
Qed.

Lemma step_size_selector_inv lip norm sigma tau s :
  step_size_selector lip norm sigma tau = Ok s ->
  st_sigma s = select_sigma sigma
  /\ select_tau lip norm (select_sigma sigma) tau = Ok (st_tau s)
  /\ ~ st_tau s == 0
  /\ st_convergence_test s
     = Qle_bool (lip / 2) (1 / st_tau s - st_sigma s * norm ^ 2).
Proof.
  unfold step_size_selector.
  destruct (select_tau lip norm (select_sigma sigma) tau) as [t|e];
    [|discriminate].
  unfold convergence_test, fdiv.
  destruct (Qeq_bool t 0) eqn:E; [discriminate|].
  intros H. inversion H. cbn. repeat split.
  intros Ht. apply Qeq_bool_iff in Ht. congruence.
Qed.

(** ** Traces without reweighting or work *)

Lemma only_prints_no_reweighting t :
  only_prints t -> filter is_reweighting t = [].
Proof.
  induction t as [|e t IH]; [reflexivity|].
  intros H. apply only_prints_inv in H as [He Ht].
  destruct e; try discriminate. cbn. now apply IH.
Qed.

Lemma only_prints_no_work t : only_prints t -> filter is_work t = [].
Proof.
  induction t as [|e t IH]; [reflexivity|].
  intros H. apply only_prints_inv in H as [He Ht].
  destruct e; try discriminate. cbn. now apply IH.
Qed.

Lemma updates_no_reweighting w k :
  filter is_reweighting (repeat (EvUpdate w) k) = [].
Proof. induction k as [|k IH]; [reflexivity|]. exact IH. Qed.

(** ** The call pattern of a run *)

Lemma passes_have_no_update k max :
  filter (fun c => match c with CUpdate => true | _ => false end)
    (List.concat (repeat [CReweight; CInstall; CIterate max] k)) = [].
Proof. induction k as [|k IH]; [reflexivity|]. exact IH. Qed.

Lemma updates_are_updates k :
  filter (fun c => match c with CUpdate => true | _ => false end)
    (repeat CUpdate k) = repeat CUpdate k.
Proof. induction k as [|k IH]; [reflexivity|]. cbn. now rewrite IH. Qed.

Lemma nb_updates_of_pattern t k j max :
  calls t
  = CNew :: repeat CUpdate k
    ++ List.concat (repeat [CReweight; CInstall; CIterate max] j) ->
  nb_updates t = k.
Proof.
  intros E. unfold nb_updates. rewrite E. cbn [filter].
  rewrite filter_app, passes_have_no_update, updates_are_updates, app_nil_r.
  apply repeat_length.
Qed.

Lemma iterate_bound_of_pattern k j max b :
  In (CIterate b)
    (CNew :: repeat CUpdate k
     ++ List.concat (repeat [CReweight; CInstall; CIterate max] j)) ->
  b = max.
Proof.
  intros [H|H]; [discriminate|].
  apply in_app_or in H as [H|H].
  - apply repeat_spec in H. discriminate.
  - induction j as [|j IH]; [contradiction|].
    cbn in H. destruct H as [H|[H|[H|H]]]; try discriminate.
    + now inversion H.
    + now apply IH.
Qed.

(** * The claims *)

Section Claims.

Variables L C R I : Type.
Context {linear : LinearOperator L C}.
Context {reweighting : Reweighting L R}.
Context {optimizer : Optimizer L I}.
Variable sigma_mad : ndarray -> Q.

(** C1 (amended).  The certificate a call computes is the closed-form test
    [1/tau - sigma * L_norm^2 >= beta/2] at the step sizes in force.  It
    never gates execution: whatever its value, the first pass asks for
    exactly [max_nb_of_iter] updates, every resumption of the iterator has
    the bound [max_nb_of_iter], and a call that differs only in its step
    sizes, hence possibly in its certificate, makes the same calls on the
    optimizer and the reweighting strategy.  For beta = 2, L_norm = 1,
    sigma = 1/2 and a positive tau the certificate is true exactly when
    tau <= 1/(1 + 1/2). *)
Theorem certificate_closed_form_never_gates (g : GradientOp) (l : L) se m thr
  mu tau sigma rf nrw n (pos : bool) (atol : Q) v s :
  known_method m = true ->
  step_size_selector (spec_rad g) (measured_norm g l) sigma tau = Ok s ->
  let run tau sigma :=
    trace (sparse_rec_condatvu sigma_mad g l se m thr mu tau sigma rf nrw n
             pos atol v) in
  (st_convergence_test s = true
   <-> spec_rad g / 2 <= 1 / st_tau s - st_sigma s * measured_norm g l ^ 2)
  /\ nb_updates (run tau sigma) = Z.to_nat n
  /\ (forall k, In (CIterate k) (calls (run tau sigma)) -> k = n)
  /\ (forall tau2 sigma2 s2,
         step_size_selector (spec_rad g) (measured_norm g l) sigma2 tau2
         = Ok s2 ->
         calls (run tau2 sigma2) = calls (run tau sigma))
  /\ (forall t, 0 < t ->
                (convergence_test t (1 # 2) 1 2 = Ok true
                 <-> t <= 1 / (1 + (1 # 2)))).
Proof.
  intros Hm Hs run. subst run. cbn beta.
  destruct (@run_summary L C R I _ _ _ sigma_mad g l se m thr mu tau sigma
              rf nrw n pos atol v s Hm Hs)
    as (d & td & st & l4 & tp & t & _ & _ & E & Ec & _).
  rewrite E. cbn [trace].
  split; [|split; [|split; [|split]]].
  - destruct (step_size_selector_inv _ _ _ _ Hs) as (_ & _ & _ & ->).
    apply Qle_bool_iff.
  - eapply nb_updates_of_pattern. exact Ec.
  - intros k Hk. rewrite Ec in Hk.
    eapply iterate_bound_of_pattern. exact Hk.
  - intros tau2 sigma2 s2 Hs2.
    destruct (@run_summary L C R I _ _ _ sigma_mad g l se m thr mu tau2
                sigma2 rf nrw n pos atol v s2 Hm Hs2)
      as (d2 & td2 & st2 & l42 & tp2 & t2 & _ & _ & E2 & Ec2 & _).
    rewrite E2. cbn [trace]. now rewrite Ec, Ec2.
  - intros t0 Ht. rewrite certificate_example.
    setoid_replace (1 / (1 + (1 # 2))) with (2 # 3) by reflexivity.
    split; [intros [_ H]; exact H|intros H; split; assumption].
Qed.

(** C1 as stated fails twice over.  At tau = 3/4 the bound
    [tau <= 1/(1 + 0.25)] holds and the certificate is false: the bound is
    not the closed form's.  At tau = -1 the bound holds as well, as any
    bound on tau from above would, and the certificate is false: the
    equivalence needs a positive tau. *)
Lemma certificate_claimed_bound_fails :
  ~ (convergence_test (3 # 4) (1 # 2) 1 2 = Ok true
     <-> 3 # 4 <= 1 / (1 + (1 # 4)))
  /\ ~ (convergence_test (-1) (1 # 2) 1 2 = Ok true
        <-> -1 <= 1 / (1 + (1 # 4))).
Proof.
  split.
  - intros [_ H].
    assert (E : convergence_test (3 # 4) (1 # 2) 1 2 = Ok true).
    { apply H. vm_compute. discriminate. }
    vm_compute in E. discriminate E.
  - intros [_ H].
    assert (E : convergence_test (-1) (1 # 2) 1 2 = Ok true).
    { apply H. vm_compute. discriminate. }
    vm_compute in E. discriminate E.
Qed.

(** C2.  In manual mode the reweighting count is forced to 0: the deriver
    returns 0 whatever was requested, the call does what the call with 0
    reweights does, and no reweighting event occurs. *)
Theorem manual_mode_never_reweights (g : GradientOp) (l : L) se thr mu tau
  sigma rf nrw n (pos : bool) (atol : Q) v :
  (exists d td,
      parameter_deriver sigma_mad g se None thr mu nrw l
      = mkOutcome (Ok d) (lin_after_weights g l) td
      /\ d_nb_of_reweights d = 0%Z /\ d_reweight_op d = None)
  /\ sparse_rec_condatvu sigma_mad g l se None thr mu tau sigma rf nrw n pos
       atol v
     = sparse_rec_condatvu sigma_mad g l se None thr mu tau sigma rf 0 n pos
         atol v
  /\ filter is_reweighting
       (trace (sparse_rec_condatvu sigma_mad g l se None thr mu tau sigma rf
                 nrw n pos atol v))
     = [].
Proof.
  split; [|split].
  - do 2 eexists. split; [apply deriver_manual; reflexivity|].
    split; reflexivity.
  - reflexivity.
  - pose proof (@deriver_manual L C R _ _ sigma_mad g se None thr mu nrw l
                  eq_refl eq_refl) as Rd.
    destruct (step_size_selector (spec_rad g) (measured_norm g l) sigma tau)
      as [s|e] eqn:Hs.
    + destruct (@driver_runs L C R I _ _ _ sigma_mad g l se None thr mu tau
                  sigma rf nrw n pos atol v _ _ s _ _ [] eq_refl Rd Hs
                  eq_refl)
        as (p1 & p2 & p3 & p4 & P1 & P2 & P3 & P4 & E).
      rewrite E. cbn [trace].
      repeat (first [rewrite filter_app
                    | progress cbn [filter is_reweighting app]]).
      rewrite (only_prints_no_reweighting P1),
        (only_prints_no_reweighting P2), (only_prints_no_reweighting P3),
        (only_prints_no_reweighting P4), updates_no_reweighting.
      reflexivity.
    + destruct (@driver_raises L C R I _ _ _ sigma_mad g l se None thr mu
                  tau sigma rf nrw n pos atol v e eq_refl Hs)
        as (p1 & td & P1 & _ & _ & Fd & E).
      rewrite E. cbn [trace].
      repeat (first [rewrite filter_app
                    | progress cbn [filter is_reweighting app]]).
      now rewrite (only_prints_no_reweighting P1), Fd.
Qed.

(** C3 (amended).  In a call whose step-size block raises nothing, the
    dual step is the caller's value or 0.5, the primal step is the caller's
    value or [1 / (beta/2 + sigma * L_norm^2 + 1e-8)], and the optimizer is
    built once, with exactly these two values: supplied values are passed
    unchanged.  (The block raises at a primal step of zero: the
    certificate divides by it before the optimizer is built.) *)
Theorem step_sizes_reach_optimizer (g : GradientOp) (l : L) se m thr mu tau
  sigma rf nrw n (pos : bool) (atol : Q) v s :
  let norm := measured_norm g l in
  known_method m = true ->
  step_size_selector (spec_rad g) norm sigma tau = Ok s ->
  st_sigma s = match sigma with Some x => x | None => 1 # 2 end
  /\ st_tau s
     = match tau with
       | Some t => t
       | None =>
           1 / (spec_rad g / 2 + st_sigma s * norm ^ 2 + (1 # 100000000))
       end
  /\ map (fun a => (arg_sigma a, arg_tau a))
       (condat_calls
          (trace (sparse_rec_condatvu sigma_mad g l se m thr mu tau sigma rf
                    nrw n pos atol v)))
     = [(st_sigma s, st_tau s)].
Proof.
  intros norm Hm Hs.
  destruct (step_size_selector_inv _ _ _ _ Hs) as (Esig & Etau & _ & _).
  destruct (@run_summary L C R I _ _ _ sigma_mad g l se m thr mu tau sigma
              rf nrw n pos atol v _ Hm Hs)
    as (d & td & st & l4 & tp & t & _ & _ & E & _ & Ea & _).
  split; [exact Esig|]. split.
  - rewrite Esig. destruct tau as [t0|]; cbn [select_tau] in Etau.
    + now inversion Etau.
    + unfold fdiv in Etau.
      destruct (Qeq_bool _ 0); [discriminate|]. now inversion Etau.
  - rewrite E. cbn [trace]. rewrite Ea. reflexivity.
Qed.

(** C4.  The call raises [ValueError] exactly when the estimation mode is
    none of [None], ["primal"], ["dual"]; it then has left the linear
    operator as it was and has only printed and read the clock: no array was
    allocated, no collaborator called. *)
Theorem unknown_mode_fails_first (g : GradientOp) (l : L) se m thr mu tau
  sigma rf nrw n (pos : bool) (atol : Q) v :
  let o := sparse_rec_condatvu sigma_mad g l se m thr mu tau sigma rf nrw n
             pos atol v in
  ((exists msg, res o = Raise (ValueError msg))
   <-> ~ (m = None \/ m = Some "primal"%string \/ m = Some "dual"%string))
  /\ ((exists msg, res o = Raise (ValueError msg))
      -> lin o = l /\ filter is_work (trace o) = []).
Proof.
  intros o. subst o.
  destruct (known_method m) eqn:Hm.
  - assert (N : ~ exists msg,
               res (sparse_rec_condatvu sigma_mad g l se m thr mu tau sigma
                      rf nrw n pos atol v) = Raise (ValueError msg)).
    { intros [msg H].
      destruct (step_size_selector (spec_rad g) (measured_norm g l) sigma tau)
        as [s|e] eqn:Hs.
      - destruct (@run_summary L C R I _ _ _ sigma_mad g l se m thr mu tau
                    sigma rf nrw n pos atol v s Hm Hs)
          as (d & td & st & l4 & tp & t & _ & _ & E & _).
        rewrite E in H. discriminate H.
      - destruct (@driver_raises L C R I _ _ _ sigma_mad g l se m thr mu tau
                    sigma rf nrw n pos atol v e Hm Hs)
          as (p1 & td & _ & _ & _ & _ & E).
        rewrite E in H. cbn in H.
        rewrite (step_size_selector_raises _ _ _ _ Hs) in H.
        discriminate H. }
    split; [|intros H; contradiction].
    split; [intros H; contradiction|].
    intros H. exfalso. apply H. now apply known_method_iff.
  - destruct (@driver_rejects L C R I _ _ _ sigma_mad g l se m thr mu tau
                sigma rf nrw n pos atol v Hm)
      as (p1 & P1 & E).
    rewrite E. cbn [res lin trace]. split.
    + split; [|intros _; eexists; reflexivity].
      intros _ H. apply known_method_iff in H. congruence.
    + intros _. split; [reflexivity|].
      rewrite filter_app, (only_prints_no_work P1). reflexivity.
Qed.

(** The cost monitor is built once, with the constant tolerance 1e-4, and
    the [atol] argument is not read. *)
Lemma cost_monitor_built (g : GradientOp) (l : L) se m thr mu tau sigma rf nrw
  n (pos : bool) (atol : Q) v s :
  known_method m = true ->
  step_size_selector (spec_rad g) (measured_norm g l) sigma tau = Ok s ->
  cost_calls
    (trace (sparse_rec_condatvu sigma_mad g l se m thr mu tau sigma rf nrw n
              pos atol v))
  = [mkDualGapCost 1000000 (1 # 10000) 1 4 0 None].
Proof.
  intros Hm Hs.
  destruct (@run_summary L C R I _ _ _ sigma_mad g l se m thr mu tau sigma
              rf nrw n pos atol v s Hm Hs)
    as (d & td & st & l4 & tp & t & _ & _ & E & _ & _ & Ek & _).
  now rewrite E.
Qed.

Lemma atol_not_read (g : GradientOp) (l : L) se m thr mu tau sigma rf nrw
  n (pos : bool) (atol atol' : Q) v :
  sparse_rec_condatvu sigma_mad g l se m thr mu tau sigma rf nrw n pos atol v
  = sparse_rec_condatvu sigma_mad g l se m thr mu tau sigma rf nrw n pos
      atol' v.
Proof. reflexivity. Qed.

(** C9.  Two calls that differ only in [verbose] return the same values or
    raise the same exception, leave the linear operator in the same state
    and make the same calls on their collaborators: they differ by what
    they print. *)
Theorem verbosity_is_a_side_channel (g : GradientOp) (l : L) se m thr mu tau
  sigma rf nrw n (pos : bool) (atol : Q) v v' :
  let o := sparse_rec_condatvu sigma_mad g l se m thr mu tau sigma rf nrw n
             pos atol v in
  let o' := sparse_rec_condatvu sigma_mad g l se m thr mu tau sigma rf nrw n
              pos atol v' in
  res o = res o' /\ lin o = lin o' /\ silent (trace o) = silent (trace o').
Proof.
  intros o o'. apply same_run.
Qed.

(** C10.  A returning call returns the optimizer's final primal array and
    the linear operator's [coeff] read after [set_coeff] was given the
    optimizer's final dual array; that write is the call's last event and
    the operator's state on return. *)
Theorem dual_solution_written_back (g : GradientOp) (l : L) se m thr mu tau
  sigma rf nrw n (pos : bool) (atol : Q) v s :
  known_method m = true ->
  step_size_selector (spec_rad g) (measured_norm g l) sigma tau = Ok s ->
  let o := sparse_rec_condatvu sigma_mad g l se m thr mu tau sigma rf nrw n
             pos atol v in
  exists d td st l4 tp,
    runs (parameter_deriver sigma_mad g se m thr mu nrw) l d
      (lin_after_weights g l) td
    /\ (let p := first_pass_state g l rf pos (d_prox_dual_op d) s n in
        runs (for_range (d_nb_of_reweights d) (reweighting_pass m n v)
                (mkLoop (publish (fst p)) (d_reweight_op d) (d_std_est d)
                   (d_prox_dual_op d)))
          (snd p) st l4 tp)
    /\ res o = Ok (x_final (ls_opt st), coeff (lin o))
    /\ lin o = set_coeff (y_final (ls_opt st)) l4
    /\ exists t, trace o = t ++ [EvSetCoeff (y_final (ls_opt st))].
Proof.
  intros Hm Hs o. subst o.
  destruct (@run_summary L C R I _ _ _ sigma_mad g l se m thr mu tau sigma
              rf nrw n pos atol v s Hm Hs)
    as (d & td & st & l4 & tp & t & Rd & [Rc _] & E & _ & _ & _ & [t' Et]
        & _).
  exists d, td, st, l4, tp. rewrite E. cbn [res lin trace].
  repeat split; try assumption. exists t'. exact Et.
Qed.

Lemma all_entries_fill v a : all_entries (of_float v) (fill v a).
Proof.
  unfold all_entries, fill. cbn. apply Forall_forall.
  intros e He. apply in_map_iff in He as (x & <- & _). reflexivity.
Qed.

Lemma all_entries_zeros shp : all_entries c0 (np_zeros shp).
Proof.
  unfold all_entries, np_zeros. cbn. apply Forall_forall.
  intros e He. now apply repeat_spec in He.
Qed.

(** C5.  The optimizer is built once; after the first pass, each of the
    reweightings in force first has the strategy compute weights from the
    current solution, then installs them in the dual proximity operator,
    then resumes the iterator with bound [max_nb_of_iter] from the optimizer
    the previous pass left: the returned solution is that of the optimizer
    reached by these continuations from the state the first pass ended in,
    and nothing is allocated once the optimizer is built. *)
Theorem reweighting_resumes_one_optimizer (g : GradientOp) (l : L) se m thr mu
  tau sigma rf nrw n (pos : bool) (atol : Q) v s :
  known_method m = true ->
  step_size_selector (spec_rad g) (measured_norm g l) sigma tau = Ok s ->
  let o := sparse_rec_condatvu sigma_mad g l se m thr mu tau sigma rf nrw n
             pos atol v in
  let k := effective_reweights m nrw in
  let primal := is_method m "primal" in
  exists d td,
    runs (parameter_deriver sigma_mad g se m thr mu nrw) l d
      (lin_after_weights g l) td
    /\ calls (trace o)
       = CNew :: repeat CUpdate (Z.to_nat n)
         ++ List.concat (repeat [CReweight; CInstall; CIterate n] k)
    /\ let p := first_pass_state g l rf pos (d_prox_dual_op d) s n in
       let setup :=
         EvClock :: td
         ++ [EvL2norm (fourier_shape g); EvZeros (fourier_shape g);
             EvLinearOp (np_zeros (fourier_shape g));
             EvNewCost (mkDualGapCost 1000000 (1 # 10000) 1 4 0 None);
             EvNewCondat
               (first_condat_args g l rf pos (d_prox_dual_op d) s)]
         ++ repeat (EvUpdate (weights (d_prox_dual_op d))) (Z.to_nat n) in
       match d_reweight_op d with
       | Some r =>
           let c0 := mkCarried (publish (fst p)) r (snd p) in
           let c := Nat.iter k (continuation primal n) c0 in
           res o = Ok (x_final (c_opt c),
                       coeff (set_coeff (y_final (c_opt c)) (c_lin c)))
           /\ silent (trace o)
              = setup ++ controller_calls k primal n c0
                ++ [EvClock; EvSetCoeff (y_final (c_opt c))]
       | None =>
           res o = Ok (x_final (publish (fst p)),
                       coeff (set_coeff (y_final (publish (fst p))) (snd p)))
           /\ silent (trace o)
              = setup ++ [EvClock; EvSetCoeff (y_final (publish (fst p)))]
       end.
Proof.
  intros Hm Hs o k primal. subst o k primal.
  destruct (@run_summary L C R I _ _ _ sigma_mad g l se m thr mu tau sigma
              rf nrw n pos atol v s Hm Hs)
    as (d & td & st & l4 & tp & t & Rd & [Rc Closed] & E & Ec & _ & _ & _
        & _ & Es).
  exists d, td. rewrite E. cbn [res lin trace].
  split; [exact Rd|]. split; [exact Ec|].
  cbn zeta in *. rewrite Es.
  destruct (d_reweight_op d) as [r|].
  - destruct Closed as (-> & -> & ->). split; [reflexivity|].
    cbn [app]. rewrite <- !app_assoc. reflexivity.
  - destruct Closed as (-> & -> & ->). split; [reflexivity|].
    cbn [app silent filter]. rewrite <- !app_assoc. reflexivity.
Qed.

(** C6.  With reweighting strategies that expose the weight array they were
    built with, the dual proximity operator the optimizer is built with,
    and that every update of the first pass sees, holds a constant array:
    [std_thr * std_est] in "primal" mode, [std_est] being the estimator's
    value on the adjoint-applied data when not supplied; [std_thr * std_est]
    in "dual" mode, zero when no estimate is supplied; [mu] in manual
    mode. *)
Theorem first_pass_weights_are_constant (g : GradientOp) (l : L) se m thr mu
  tau sigma rf nrw n (pos : bool) (atol : Q) v s :
  (forall w, rw_weights (cwbReweight w) = w) ->
  (forall w t, rw_weights (mReweight w t) = w) ->
  known_method m = true ->
  step_size_selector (spec_rad g) (measured_norm g l) sigma tau = Ok s ->
  let o := sparse_rec_condatvu sigma_mad g l se m thr mu tau sigma rf nrw n
             pos atol v in
  exists w,
    map (fun a => weights (arg_prox_dual a)) (condat_calls (trace o)) = [w]
    /\ (forall w', In (EvUpdate w') (trace o) -> w' = w)
    /\ (m = Some "primal"%string ->
        all_entries
          (of_float (thr * match se with
                           | Some e => e
                           | None => sigma_mad (MtX g (grad_y g))
                           end)) w)
    /\ (m = Some "dual"%string ->
        all_entries
          (of_float (thr * match se with Some e => e | None => 0 end)) w
        /\ (se = None -> Forall (fun e => re e == 0 /\ im e == 0) (data w)))
    /\ (m = None -> all_entries (of_float mu) w).
Proof.
  intros Hcwb Hmrw Hm Hs o. subst o.
  destruct (@run_summary L C R I _ _ _ sigma_mad g l se m thr mu tau sigma
              rf nrw n pos atol v s Hm Hs)
    as (d & td & st & l4 & tp & t & Rd & _ & E & _ & Ea & _ & _ & Eu & _).
  exists (weights (d_prox_dual_op d)). rewrite E. cbn [trace]. rewrite Ea.
  split; [reflexivity|]. split; [exact Eu|].
  split; [|split].
  - intros ->.
    destruct (runs_inj Rd (@deriver_primal L C R _ _ sigma_mad g se
                             (Some "primal"%string) thr mu nrw l eq_refl)) as (-> & _).
    cbn [d_prox_dual_op weights]. rewrite Hcwb. apply all_entries_fill.
  - intros ->.
    destruct (runs_inj Rd (@deriver_dual L C R _ _ sigma_mad g se
                             (Some "dual"%string) thr mu nrw l eq_refl
                             eq_refl)) as (-> & _).
    cbn [d_prox_dual_op weights]. rewrite Hmrw.
    split; [apply all_entries_fill|].
    intros ->. unfold fill. cbn [data]. apply Forall_forall.
    intros e He. apply in_map_iff in He as (x & <- & _). cbn.
    split; [ring|reflexivity].
  - intros ->.
    destruct (runs_inj Rd (@deriver_manual L C R _ _ sigma_mad g se None thr
                             mu nrw l eq_refl eq_refl)) as (-> & _).
    apply all_entries_fill.
Qed.

(** C7.  With [max_nb_of_iter = 0] and no reweighting in force the
    optimizer is built from the all-zero primal and dual arrays and is
    never updated or resumed; what the call can return is not those arrays
    but the attributes [x_new] and [y_new] of that optimizer, read at line
    207 as its constructor left them: no update has assigned them.  (The
    imported optimizer assigns them in [update()] only, and the read
    raises.) *)
Theorem zero_iterations_read_unassigned_solution (g : GradientOp) (l : L) se
  m thr mu tau sigma rf nrw (pos : bool) (atol : Q) v s :
  known_method m = true ->
  step_size_selector (spec_rad g) (measured_norm g l) sigma tau = Ok s ->
  effective_reweights m nrw = O ->
  let o := sparse_rec_condatvu sigma_mad g l se m thr mu tau sigma rf nrw 0
             pos atol v in
  exists pd,
    let a := first_condat_args g l rf pos pd s in
    condat_calls (trace o) = [a]
    /\ arg_x a = np_zeros (fourier_shape g)
    /\ all_entries c0 (arg_x a) /\ all_entries c0 (arg_y a)
    /\ (forall w, ~ In (EvUpdate w) (trace o))
    /\ (forall k, ~ In (EvIterate k) (trace o))
    /\ (forall r,
           res o = Ok r ->
           r = (x_new (Condat a),
                coeff (set_coeff (y_new (Condat a)) (lin_at_start g l)))).
Proof.
  intros Hm Hs Hk o. subst o.
  destruct (@run_summary L C R I _ _ _ sigma_mad g l se m thr mu tau sigma
              rf nrw 0%Z pos atol v s Hm Hs)
    as (d & td & st & l4 & tp & t & _ & [_ Closed] & E & Ec & Ea & _).
  rewrite E. cbn [res trace]. rewrite Hk in Ec. cbn in Ec.
  exists (d_prox_dual_op d). cbn zeta in *.
  set (a := first_condat_args g l rf pos (d_prox_dual_op d) s) in *.
  change (first_pass_state g l rf pos (d_prox_dual_op d) s 0)
    with (Condat (I := I) a, lin_at_start g l) in Closed.
  cbn [fst snd] in Closed.
  assert (F : ls_opt st = publish (Condat a) /\ l4 = lin_at_start g l).
  { destruct (d_reweight_op d) as [r|].
    - rewrite Hk in Closed. cbn in Closed.
      destruct Closed as (-> & -> & _). now split.
    - destruct Closed as (-> & -> & _). now split. }
  destruct F as [-> ->].
  split; [exact Ea|]. split; [reflexivity|].
  split; [apply all_entries_zeros|]. split; [apply (all_entries_fill 0)|].
  split; [|split].
  - intros w Hw. pose proof (@In_calls _ CUpdate t Hw eq_refl) as H.
    rewrite Ec in H. destruct H as [H|[]]. discriminate H.
  - intros k Hw. pose proof (@In_calls _ (CIterate k) t Hw eq_refl) as H.
    rewrite Ec in H. destruct H as [H|[]]. discriminate H.
  - intros r Hr. now inversion Hr.
Qed.

End Claims.

(** * The claims on a concrete call *)

(** C1, on a call whose certificate is false (tau = 3/4 with beta = 2,
    L_norm = 1, sigma = 1/2) and on the same call at tau = 1/2, whose
    certificate is true. *)
Lemma certificate_closed_form_never_gates_witness :
  let s := mkSteps (1 # 2) (3 # 4) false in
  let run tau :=
    trace (Toy.reconstruct None (Some "primal"%string) tau (Some (1 # 2)) 2 1
             (1 # 10000) 1) in
  known_method (Some "primal"%string) = true
  /\ step_size_selector (spec_rad Toy.gradient_op)
       (measured_norm Toy.gradient_op Toy.linear_op) (Some (1 # 2))
       (Some (3 # 4)) = Ok s
  /\ (st_convergence_test s = true
      <-> spec_rad Toy.gradient_op / 2
          <= 1 / st_tau s
             - st_sigma s * measured_norm Toy.gradient_op Toy.linear_op ^ 2)
  /\ nb_updates (run (Some (3 # 4))) = 1%nat
  /\ calls (run (Some (1 # 2))) = calls (run (Some (3 # 4)))
  /\ (0 < 1 # 2
      /\ (convergence_test (1 # 2) (1 # 2) 1 2 = Ok true
          <-> 1 # 2 <= 1 / (1 + (1 # 2)))).
Proof.
  intros s run. split; [reflexivity|]. split; [reflexivity|].
  destruct (@certificate_closed_form_never_gates ndarray ndarray
              (ndarray * Q) Condat_args Toy.linear Toy.reweighting
              Toy.optimizer Toy.sigma_mad Toy.gradient_op Toy.linear_op None
              (Some "primal"%string) 2 (1 # 1000000) (Some (3 # 4))
              (Some (1 # 2)) 1 2 1 false (1 # 10000) 1 s eq_refl eq_refl)
    as (Hform & Hupd & _ & Hsame & Hex).
  split; [exact Hform|]. split; [exact Hupd|].
  split.
  - exact (Hsame (Some (1 # 2)) (Some (1 # 2)) (mkSteps (1 # 2) (1 # 2) true)
             eq_refl).
  - split; [reflexivity|]. exact (Hex (1 # 2) eq_refl).
Defined.

(** The certificate as a verbose call reports it at tau = 3/4, which is
    below 1/(1 + 0.25). *)
Example certificate_reported_false :
  In (EvPrint " - 1/tau - sigma||L||^2 >= beta/2: " (PBool false))
    (trace (Toy.reconstruct None None (Some (3 # 4)) (Some (1 # 2)) 1 2
              (1 # 10000) 1))
  /\ 3 # 4 <= 1 / (1 + (1 # 4)).
Proof.
  split; [|discriminate].
  vm_compute. do 13 right. left. reflexivity.
Qed.

(** C3, on a call that supplies tau = 3/4 and sigma = 1/2. *)
Lemma step_sizes_reach_optimizer_witness :
  let s := mkSteps (1 # 2) (3 # 4) false in
  known_method (Some "dual"%string) = true
  /\ step_size_selector (spec_rad Toy.gradient_op)
       (measured_norm Toy.gradient_op Toy.linear_op) (Some (1 # 2))
       (Some (3 # 4)) = Ok s
  /\ map (fun a => (arg_sigma a, arg_tau a))
       (condat_calls
          (trace (Toy.reconstruct None (Some "dual"%string) (Some (3 # 4))
                    (Some (1 # 2)) 1 2 (1 # 10000) 0)))
     = [(1 # 2, 3 # 4)].
Proof.
  intros s. split; [reflexivity|]. split; [reflexivity|].
  destruct (@step_sizes_reach_optimizer ndarray ndarray (ndarray * Q)
              Condat_args Toy.linear Toy.reweighting Toy.optimizer
              Toy.sigma_mad Toy.gradient_op Toy.linear_op None
              (Some "dual"%string) 2 (1 # 1000000) (Some (3 # 4))
              (Some (1 # 2)) 1 1 2 false (1 # 10000) 0 s eq_refl eq_refl)
    as (_ & _ & Hargs).
  exact Hargs.
Defined.

(** C3 as stated fails: a call that supplies tau = 0 and sigma = 1/2 raises
    [ZeroDivisionError] at the certificate, and no optimizer is built to
    pass the supplied values to. *)
Lemma supplied_zero_tau_is_not_passed :
  let o := Toy.reconstruct None None (Some 0) (Some (1 # 2)) 1 2 (1 # 10000)
             0 in
  res o = Raise ZeroDivisionError
  /\ condat_calls (trace o) = []
  /\ ~ (map (fun a => (arg_sigma a, arg_tau a)) (condat_calls (trace o))
        = [(1 # 2, 0)]).
Proof.
  intros o. split; [reflexivity|]. split; [reflexivity|].
  vm_compute. discriminate.
Qed.

(** C4, on a call with the mode "wavelet". *)
Lemma unknown_mode_fails_first_witness :
  let o := Toy.reconstruct None (Some "wavelet"%string) None None 1 2 (1 # 10000) 1 in
  (exists msg, res o = Raise (ValueError msg))
  /\ ~ (Some "wavelet"%string = None \/ Some "wavelet"%string = Some "primal"%string
        \/ Some "wavelet"%string = Some "dual"%string)
  /\ lin o = Toy.linear_op /\ filter is_work (trace o) = [].
Proof.
  intros o.
  pose proof (@unknown_mode_fails_first ndarray ndarray (ndarray * Q)
                Condat_args Toy.linear Toy.reweighting Toy.optimizer
                Toy.sigma_mad Toy.gradient_op Toy.linear_op None
                (Some "wavelet"%string) 2 (1 # 1000000) None None 1 1 2 false
                (1 # 10000) 1) as [Hiff Hstate].
  assert (Hraise : exists msg, res o = Raise (ValueError msg))
    by (eexists; reflexivity).
  split; [exact Hraise|].
  split; [exact (proj1 Hiff Hraise)|].
  exact (Hstate Hraise).
Defined.

(** C5, on a call in "primal" mode with one update and two reweightings. *)
Lemma reweighting_resumes_one_optimizer_witness :
  let s := mkSteps (1 # 2) (3 # 4) false in
  let o := Toy.reconstruct None (Some "primal"%string) (Some (3 # 4)) (Some (1 # 2)) 2 1
             (1 # 10000) 1 in
  known_method (Some "primal"%string) = true
  /\ step_size_selector (spec_rad Toy.gradient_op)
       (measured_norm Toy.gradient_op Toy.linear_op) (Some (1 # 2))
       (Some (3 # 4)) = Ok s
  /\ calls (trace o)
     = [CNew; CUpdate; CReweight; CInstall; CIterate 1; CReweight; CInstall;
        CIterate 1].
Proof.
  intros s o. split; [reflexivity|]. split; [reflexivity|].
  destruct (@reweighting_resumes_one_optimizer ndarray ndarray (ndarray * Q)
              Condat_args Toy.linear Toy.reweighting Toy.optimizer
              Toy.sigma_mad Toy.gradient_op Toy.linear_op None
              (Some "primal"%string) 2 (1 # 1000000) (Some (3 # 4)) (Some (1 # 2))
              1 2 1 false (1 # 10000) 1 s eq_refl eq_refl)
    as (d & td & _ & Hcalls & _).
  exact Hcalls.
Defined.

(** C6, on a call in "dual" mode without a noise estimate: the weights of
    the first pass are zero. *)
Lemma first_pass_weights_are_constant_witness :
  let s := mkSteps (1 # 2) (3 # 4) false in
  let o := Toy.reconstruct None (Some "dual"%string) (Some (3 # 4)) (Some (1 # 2)) 1 2
             (1 # 10000) 0 in
  (forall w, rw_weights (cwbReweight w) = w)
  /\ (forall w t, rw_weights (mReweight w t) = w)
  /\ known_method (Some "dual"%string) = true
  /\ step_size_selector (spec_rad Toy.gradient_op)
       (measured_norm Toy.gradient_op Toy.linear_op) (Some (1 # 2))
       (Some (3 # 4)) = Ok s
  /\ exists w,
       map (fun a => weights (arg_prox_dual a)) (condat_calls (trace o)) = [w]
       /\ (forall w', In (EvUpdate w') (trace o) -> w' = w)
       /\ all_entries (of_float (2 * 0)) w
       /\ Forall (fun e => re e == 0 /\ im e == 0) (data w).
Proof.
  intros s o.
  split; [reflexivity|]. split; [reflexivity|].
  split; [reflexivity|]. split; [reflexivity|].
  destruct (@first_pass_weights_are_constant ndarray ndarray (ndarray * Q)
              Condat_args Toy.linear Toy.reweighting Toy.optimizer
              Toy.sigma_mad Toy.gradient_op Toy.linear_op None (Some "dual"%string)
              2 (1 # 1000000) (Some (3 # 4)) (Some (1 # 2)) 1 1 2 false
              (1 # 10000) 0 s (fun w => eq_refl) (fun w t => eq_refl)
              eq_refl eq_refl)
    as (w & Hargs & Hupd & _ & Hdual & _).
  exists w. split; [exact Hargs|]. split; [exact Hupd|].
  destruct (Hdual eq_refl) as [Hconst Hzero].
  split; [exact Hconst|exact (Hzero eq_refl)].
Defined.

(** C7, on a call in manual mode without iteration. *)
Lemma zero_iterations_read_unassigned_solution_witness :
  let s := mkSteps (1 # 2) (3 # 4) false in
  let o := Toy.reconstruct None None (Some (3 # 4)) (Some (1 # 2)) 1 0
             (1 # 10000) 0 in
  known_method None = true
  /\ step_size_selector (spec_rad Toy.gradient_op)
       (measured_norm Toy.gradient_op Toy.linear_op) (Some (1 # 2))
       (Some (3 # 4)) = Ok s
  /\ effective_reweights None 1 = O
  /\ exists a,
       condat_calls (trace o) = [a]
       /\ (forall w, ~ In (EvUpdate w) (trace o))
       /\ (forall r,
              res o = Ok r ->
              r = (x_new (Condat a),
                   coeff (set_coeff (y_new (Condat a))
                            (lin_at_start Toy.gradient_op Toy.linear_op)))).
Proof.
  intros s o. split; [reflexivity|]. split; [reflexivity|].
  split; [reflexivity|].
  destruct (@zero_iterations_read_unassigned_solution ndarray ndarray
              (ndarray * Q) Condat_args Toy.linear Toy.reweighting
              Toy.optimizer Toy.sigma_mad Toy.gradient_op Toy.linear_op None
              None 2 (1 # 1000000) (Some (3 # 4)) (Some (1 # 2)) 1 1 false
              (1 # 10000) 0 s eq_refl eq_refl eq_refl)
    as (pd & Hnew & _ & _ & _ & Hupd & _ & Hres).
  eexists. split; [exact Hnew|]. split; [exact Hupd|exact Hres].
Defined.

(** C10, on a call in "dual" mode with one reweighting. *)
Lemma dual_solution_written_back_witness :
  let s := mkSteps (1 # 2) (3 # 4) false in
  let o := Toy.reconstruct None (Some "dual"%string) (Some (3 # 4)) (Some (1 # 2)) 1 2
             (1 # 10000) 0 in
  known_method (Some "dual"%string) = true
  /\ step_size_selector (spec_rad Toy.gradient_op)
       (measured_norm Toy.gradient_op Toy.linear_op) (Some (1 # 2))
       (Some (3 # 4)) = Ok s
  /\ exists x y l4,
       res o = Ok (x, coeff (lin o)) /\ lin o = set_coeff y l4
       /\ exists t, trace o = t ++ [EvSetCoeff y].
Proof.
  intros s o. split; [reflexivity|]. split; [reflexivity|].
  destruct (@dual_solution_written_back ndarray ndarray (ndarray * Q)
              Condat_args Toy.linear Toy.reweighting Toy.optimizer
              Toy.sigma_mad Toy.gradient_op Toy.linear_op None (Some "dual"%string)
              2 (1 # 1000000) (Some (3 # 4)) (Some (1 # 2)) 1 1 2 false
              (1 # 10000) 0 s eq_refl eq_refl)
    as (d & td & st & l4 & tp & _ & _ & Hres & Hlin & Htrace).
  exists (x_final (ls_opt st)), (y_final (ls_opt st)), l4.
  split; [exact Hres|]. split; [exact Hlin|exact Htrace].
Defined.

(** C8.  A call with [atol = 1e-3] builds its cost monitor with tolerance
    1e-4: the argument documented as the convergence tolerance is not the
    monitor's, and any other [atol] gives the same outcome. *)
Theorem atol_is_not_the_monitor_tolerance :
  let o := Toy.reconstruct None None None None 1 2 (1 # 1000) 0 in
  map tolerance (cost_calls (trace o)) = [1 # 10000]
  /\ ~ 1 # 10000 == 1 # 1000
  /\ forall atol, Toy.reconstruct None None None None 1 2 atol 0 = o.
Proof.
  intros o. split; [reflexivity|]. split; [discriminate|].
  intros atol. reflexivity.
Qed.

(** * Further properties of the driver *)

(** ** Step sizes *)

Lemma Qsqr_nonneg x : 0 <= x ^ 2.
Proof.
  setoid_replace (x ^ 2) with (x * x) by (simpl; ring).
  destruct (Qlt_le_dec x 0) as [H|H]; nra.
Qed.

(** X3.  The certificate is kept by a smaller positive primal step and by a
    smaller dual step. *)
Theorem certificate_monotone tau tau' sigma sigma' norm lip :
  0 < tau' -> tau' <= tau -> sigma' <= sigma ->
  convergence_test tau sigma norm lip = Ok true ->
  convergence_test tau' sigma' norm lip = Ok true.
Proof.
  intros H0 Hle Hs H.
  assert (Ht' : ~ tau' == 0) by lra.
  assert (Ht : ~ tau == 0) by lra.
  rewrite (convergence_test_ok _ _ _ Ht) in H.
  rewrite (convergence_test_ok _ _ _ Ht').
  injection H as H'. f_equal.
  apply Qle_bool_iff in H'. apply Qle_bool_iff.
  change (norm * norm) with (norm ^ 2) in H'.
  assert (E : tau * (1 / tau) == 1) by (field; exact Ht).
  assert (E' : tau' * (1 / tau') == 1) by (field; exact Ht').
  pose proof (Qsqr_nonneg norm) as Hn.
  set (i := 1 / tau) in *. set (i' := 1 / tau') in *.
  set (q := norm ^ 2) in *.
  set (h := lip / 2) in *.
  assert (Hi : 0 < i) by nra.
  assert (Hi' : i <= i') by nra.
  assert (Hq : sigma' * q <= sigma * q) by nra.
  set (a := sigma * q) in *. set (a' := sigma' * q) in *.
  lra.
Qed.

Lemma certificate_monotone_witness :
  0 < 1 # 2 /\ 1 # 2 <= 2 # 3 /\ 1 # 4 <= 1 # 2
  /\ convergence_test (2 # 3) (1 # 2) 1 2 = Ok true
  /\ convergence_test (1 # 2) (1 # 4) 1 2 = Ok true.
Proof.
  assert (H1 : 0 < 1 # 2) by reflexivity.
  assert (H2 : 1 # 2 <= 2 # 3) by discriminate.
  assert (H3 : 1 # 4 <= 1 # 2) by discriminate.
  assert (H4 : convergence_test (2 # 3) (1 # 2) 1 2 = Ok true) by reflexivity.
  repeat (split; [assumption|]).
  exact (@certificate_monotone (2 # 3) (1 # 2) (1 # 2) (1 # 4) 1 2 H1 H2 H3
           H4).
Defined.

Section Extras.

Variables L C R I : Type.
Context {linear : LinearOperator L C}.
Context {reweighting : Reweighting L R}.
Context {optimizer : Optimizer L I}.
Variable sigma_mad : ndarray -> Q.

(** ** What the optimizer starts from *)

(** X11.  Every call that returns builds one cost monitor and one
    optimizer, started from the all-zero image of the Fourier operator's
    shape and an all-zero dual array, with the caller's gradient operator
    and relaxation factor, and the positivity projection exactly when
    [add_positivity] is set. *)
Theorem optimizer_starts_from_zero (g : GradientOp) (l : L) se m thr mu tau
  sigma rf nrw n (pos : bool) (atol : Q) v s :
  let o := sparse_rec_condatvu sigma_mad g l se m thr mu tau sigma rf nrw n
             pos atol v in
  known_method m = true ->
  step_size_selector (spec_rad g) (measured_norm g l) sigma tau = Ok s ->
  exists a,
    condat_calls (trace o) = [a]
    /\ cost_calls (trace o) = [arg_cost a]
    /\ arg_x a = np_zeros (fourier_shape g)
    /\ all_entries c0 (arg_y a)
    /\ shape (arg_y a)
       = shape (fst (op (np_zeros (fourier_shape g)) (lin_before_dual g l)))
    /\ arg_grad a = g
    /\ arg_rho a = rf
    /\ (arg_prox a = Positive <-> pos = true).
Proof.
  intros o Hm Hs. subst o.
  destruct (@run_summary L C R I _ _ _ sigma_mad g l se m thr mu tau sigma
              rf nrw n pos atol v s Hm Hs)
    as (d & td & st & l4 & tp & t & _ & _ & E & _ & Ea & Ek & _).
  rewrite E. cbn [trace]. eexists. split; [exact Ea|].
  split; [exact Ek|]. cbn. repeat split.
  - apply (all_entries_fill 0).
  - destruct pos; [reflexivity|discriminate].
  - intros ->. reflexivity.
Qed.

(** ** Defaults *)

Lemma bind_cong A B (m : M L A) (f f' : A -> M L B) l :
  (forall a l1 t1, runs m l a l1 t1 -> f a l1 = f' a l1) ->
  bind m f l = bind m f' l.
Proof.
  intros H. unfold bind.
  pose proof (outcome_eta (m l)) as E.
  destruct (res (m l)) as [a|e] eqn:Hr; [|reflexivity].
  cbn zeta. now rewrite (H a (lin (m l)) (trace (m l)) E).
Qed.

(** X13.  Supplying the primal step the driver would derive changes
    nothing: the call without [tau] and the call given
    [1 / (beta/2 + sigma * L_norm^2 + eps)] have the same outcome. *)
Theorem supplying_derived_tau_changes_nothing (g : GradientOp) (l : L) se m
  thr mu sigma rf nrw n (pos : bool) (atol : Q) v :
  let d := spec_rad g / 2 + select_sigma sigma * measured_norm g l ^ 2 + eps in
  ~ d == 0 ->
  sparse_rec_condatvu sigma_mad g l se m thr mu None sigma rf nrw n pos atol v
  = sparse_rec_condatvu sigma_mad g l se m thr mu (Some (1 / d)) sigma rf nrw
      n pos atol v.
Proof.
  intros d Hd. unfold sparse_rec_condatvu.
  apply bind_cong. intros u1 l1 t1 R1.
  destruct (runs_when v (m := print "condatvu_logo" PNothing) l
              (@chatter_print L _ _)) as (p & Rp & _).
  destruct (runs_inj R1 Rp) as (_ & E1 & _). subst l1.
  apply bind_cong. intros u2 l2 t2 R2.
  assert (l2 = l) as -> by (unfold runs, emit in R2; now injection R2).
  destruct (negb (known_method m)); [reflexivity|].
  apply bind_cong. intros dv l3 t3 R3.
  destruct (@deriver_runs L C R _ _ sigma_mad g se m thr mu nrw l)
    as (dv' & td & Rd & _).
  destruct (runs_inj R3 Rd) as (_ & E3 & _). subst l3.
  apply bind_cong. intros norm l4 t4 R4.
  assert (norm = measured_norm g l) as ->
    by (unfold runs, linear_op_l2norm in R4; now injection R4).
  f_equal. f_equal.
  rewrite (@step_sizes_derived (spec_rad g) (measured_norm g l) sigma Hd).
  fold d.
  now rewrite (@step_sizes_supplied (spec_rad g) (measured_norm g l) sigma
                 (1 / d) (Qinv_nonzero Hd)).
Qed.

(** ** Arguments that only reach the printer *)

Lemma related_bind A B (Rv : A -> A -> Prop) (Rw : B -> B -> Prop)
  (m m' : M L A) (f f' : A -> M L B) l :
  related Rv (m l) (m' l) ->
  (forall a a' l1, Rv a a' -> related Rw (f a l1) (f' a' l1)) ->
  related Rw (bind m f l) (bind m' f' l).
Proof.
  intros (Hl & Ht & Hr) Hf. unfold bind.
  destruct (res (m l)) as [a|e], (res (m' l)) as [a'|e'];
    try contradiction.
  - destruct (Hf a a' (lin (m l)) Hr) as (Hl' & Ht' & Hr').
    rewrite <- Hl. repeat split; cbn [res lin trace]; try assumption.
    rewrite !silent_app. now rewrite Ht, Ht'.
  - subst e'. repeat split; cbn [res lin trace]; assumption.
Qed.

Lemma related_of_same A (Rv : A -> A -> Prop) (o o' : outcome L A) :
  (forall a, Rv a a) -> same_but_prints o o' -> related Rv o o'.
Proof.
  intros Hrefl (Hr & Hl & Ht). repeat split; try assumption.
  rewrite <- Hr. destruct (res o); [apply Hrefl|reflexivity].
Qed.

Lemma same_of_related A (o o' : outcome L A) :
  related eq o o' -> same_but_prints o o'.
Proof.
  intros (Hl & Ht & Hr). repeat split; try assumption.
  destruct (res o), (res o'); try contradiction; now subst.
Qed.

Lemma related_for_from S (Rs : S -> S -> Prop) (body body' : Z -> S -> M L S) :
  (forall i s s' l, Rs s s' -> related Rs (body i s l) (body' i s' l)) ->
  forall k i s s' l,
    Rs s s' -> related Rs (for_from k i body s l) (for_from k i body' s' l).
Proof.
  intros Hb k. induction k as [|k IH]; intros i s s' l Hs.
  - repeat split. exact Hs.
  - cbn [for_from]. apply related_bind with (Rv := Rs); [now apply Hb|].
    intros a a' l1 Ha. now apply IH.
Qed.

Lemma related_pass m max v v' i (s s' : loop_state R I) (l : L) :
  same_loop s s' ->
  related same_loop (reweighting_pass m max v i s l)
    (reweighting_pass m max v' i s' l).
Proof.
  intros (Ho & Hr & Hp). unfold reweighting_pass. rewrite <- Ho, <- Hr.
  destruct (ls_reweight_op s) as [r|]; [|repeat split].
  apply related_bind with (Rv := fun p p' : R * option Q => fst p = fst p').
  { destruct (is_method m "primal").
    - apply related_bind with (Rv := eq);
        [apply related_of_same; [reflexivity|apply same_refl]|].
      intros c c' l1 <-.
      apply related_bind with (Rv := eq);
        [apply related_of_same; [reflexivity|apply same_refl]|].
      intros r1 r1' l2 <-. repeat split.
    - apply related_bind with (Rv := eq);
        [apply related_of_same; [reflexivity|apply same_refl]|].
      intros p p' l1 <-. repeat split. }
  intros p p' l1 Hpp.
  apply related_bind with (Rv := eq).
  { apply related_of_same; [reflexivity|].
    apply same_when; apply chatter_bind; apply chatter_print. }
  intros _ _ l2 _. rewrite <- Hpp.
  apply related_bind with (Rv := eq);
    [apply related_of_same; [reflexivity|apply same_refl]|].
  intros _ _ l3 _.
  apply related_bind with (Rv := eq);
    [apply related_of_same; [reflexivity|apply same_refl]|].
  intros o o' l4 <-. repeat split.
Qed.

(** Two calls whose derivers agree on what the rest of the driver reads
    differ by their prints. *)
Lemma same_run_of_derived (g : GradientOp) (l : L) m tau sigma rf n
  (pos : bool) se thr mu nrw (atol : Q) v se' thr' mu' nrw' (atol' : Q) v' :
  (forall l0,
      related same_derived
        (parameter_deriver sigma_mad g se m thr mu nrw l0)
        (parameter_deriver sigma_mad g se' m thr' mu' nrw' l0)) ->
  same_but_prints
    (sparse_rec_condatvu sigma_mad g l se m thr mu tau sigma rf nrw n pos
       atol v)
    (sparse_rec_condatvu sigma_mad g l se' m thr' mu' tau sigma rf nrw' n pos
       atol' v').
Proof.
  intros Hd. apply same_of_related. unfold sparse_rec_condatvu.
  apply related_bind with (Rv := eq).
  { apply related_of_same; [reflexivity|].
    apply same_when; apply chatter_print. }
  intros _ _ l0 _.
  apply related_bind with (Rv := eq);
    [apply related_of_same; [reflexivity|apply same_refl]|].
  intros _ _ l1 _.
  destruct (negb (known_method m)); [repeat split|].
  apply related_bind with (Rv := same_derived); [apply Hd|].
  intros d d' l2 (Hrw & Hpd & Hnb).
  apply related_bind with (Rv := eq);
    [apply related_of_same; [reflexivity|apply same_refl]|].
  intros norm _ l3 <-.
  apply related_bind with (Rv := eq);
    [apply related_of_same; [reflexivity|apply same_refl]|].
  intros s _ l4 <-.
  apply related_bind with (Rv := eq);
    [apply related_of_same; [reflexivity|apply same_refl]|].
  intros primal _ l5 <-.
  apply related_bind with (Rv := eq);
    [apply related_of_same; [reflexivity|apply same_refl]|].
  intros dual _ l6 <-.
  apply related_bind with (Rv := eq).
  { apply related_of_same; [reflexivity|].
    apply same_when; apply chatter_welcome. }
  intros _ _ l7 _.
  apply related_bind with (Rv := eq);
    [apply related_of_same; [reflexivity|apply same_refl]|].
  intros cost_op _ l8 <-. rewrite <- Hpd.
  apply related_bind with (Rv := eq);
    [apply related_of_same; [reflexivity|apply same_refl]|].
  intros opt _ l9 <-.
  apply related_bind with (Rv := eq).
  { apply related_of_same; [reflexivity|].
    apply same_when; apply chatter_print. }
  intros _ _ l10 _.
  apply related_bind with (Rv := eq);
    [apply related_of_same; [reflexivity|apply same_refl]|].
  intros opt1 _ l11 <-.
  apply related_bind with (Rv := same_loop).
  { unfold for_range. rewrite <- Hnb. apply related_for_from.
    - intros. now apply related_pass.
    - repeat split; assumption. }
  intros st st' l12 (Ho & _ & _).
  apply related_bind with (Rv := eq);
    [apply related_of_same; [reflexivity|apply same_refl]|].
  intros _ _ l13 _. rewrite <- Ho.
  apply related_bind with (Rv := eq).
  { apply related_of_same; [reflexivity|].
    apply same_when; apply chatter_goodbye. }
  intros _ _ l14 _.
  apply related_of_same; [reflexivity|apply same_refl].
Qed.

Lemma related_derived_refl (o : outcome L (derived R)) :
  related same_derived o o.
Proof.
  repeat split. destruct (res o); [repeat split|reflexivity].
Qed.

(** X8.  With an estimation mode, [mu] only reaches the printer: calls that
    differ in [mu] return the same values or raise the same exception,
    leave the linear operator in the same state and make the same calls. *)
Theorem mu_only_matters_in_manual_mode (g : GradientOp) (l : L) se m thr mu
  mu' tau sigma rf nrw n (pos : bool) (atol : Q) v :
  is_method m "primal" || is_method m "dual" = true ->
  let o := sparse_rec_condatvu sigma_mad g l se m thr mu tau sigma rf nrw n
             pos atol v in
  let o' := sparse_rec_condatvu sigma_mad g l se m thr mu' tau sigma rf nrw n
              pos atol v in
  res o = res o' /\ lin o = lin o' /\ silent (trace o) = silent (trace o').
Proof.
  intros Hm o o'. apply same_run_of_derived. intros l0.
  replace (parameter_deriver sigma_mad g se m thr mu' nrw l0)
    with (parameter_deriver sigma_mad g se m thr mu nrw l0).
  - apply related_derived_refl.
  - unfold parameter_deriver.
    destruct (is_method m "primal"); [reflexivity|].
    destruct (is_method m "dual"); [reflexivity|discriminate Hm].
Qed.

(** X9.  In manual mode, [std_est] and [std_thr] only reach the printer. *)
Theorem estimate_ignored_in_manual_mode (g : GradientOp) (l : L) se se' thr
  thr' mu tau sigma rf nrw n (pos : bool) (atol : Q) v :
  let o := sparse_rec_condatvu sigma_mad g l se None thr mu tau sigma rf nrw
             n pos atol v in
  let o' := sparse_rec_condatvu sigma_mad g l se' None thr' mu tau sigma rf
              nrw n pos atol v in
  res o = res o' /\ lin o = lin o' /\ silent (trace o) = silent (trace o').
Proof.
  intros o o'. apply same_run_of_derived. intros l0.
  rewrite (@deriver_manual L C R _ _ sigma_mad g se None thr mu nrw l0
             eq_refl eq_refl).
  rewrite (@deriver_manual L C R _ _ sigma_mad g se' None thr' mu nrw l0
             eq_refl eq_refl).
  repeat split.
Qed.

Lemma no_reweighting_of_calls t :
  Forall (fun c => c = CNew \/ c = CUpdate) (calls t) ->
  filter is_reweighting t = [].
Proof.
  induction t as [|e t IH]; [reflexivity|].
  destruct e; cbn; intros H; try (now apply IH);
    try (inversion H as [|c cs Hc Hcs]; subst; now apply IH);
    inversion H as [|c cs [Hc|Hc] Hcs]; discriminate Hc.
Qed.

(** X10.  A reweighting count that is not positive is a count of zero: the
    call does what the call with 0 reweights does, up to printing, and
    makes no reweighting call. *)
Theorem nonpositive_reweights_is_zero (g : GradientOp) (l : L) se m thr mu tau
  sigma rf nrw n (pos : bool) (atol : Q) v :
  (nrw <= 0)%Z ->
  let o := sparse_rec_condatvu sigma_mad g l se m thr mu tau sigma rf nrw n
             pos atol v in
  let o' := sparse_rec_condatvu sigma_mad g l se m thr mu tau sigma rf 0 n
              pos atol v in
  res o = res o' /\ lin o = lin o' /\ silent (trace o) = silent (trace o')
  /\ filter is_reweighting (trace o) = [].
Proof.
  intros Hn o o'.
  assert (Hz : Z.to_nat nrw = Z.to_nat 0) by lia.
  assert (S : same_but_prints o o').
  { apply same_run_of_derived. intros l0.
    destruct (is_method m "primal") eqn:Hp;
      [|destruct (is_method m "dual") eqn:Hd].
    - rewrite (@deriver_primal L C R _ _ sigma_mad g se m thr mu nrw l0 Hp).
      rewrite (@deriver_primal L C R _ _ sigma_mad g se m thr mu 0 l0 Hp).
      repeat split. exact Hz.
    - rewrite (@deriver_dual L C R _ _ sigma_mad g se m thr mu nrw l0 Hp Hd).
      rewrite (@deriver_dual L C R _ _ sigma_mad g se m thr mu 0 l0 Hp Hd).
      repeat split. exact Hz.
    - rewrite (@deriver_manual L C R _ _ sigma_mad g se m thr mu nrw l0 Hp
                 Hd).
      rewrite (@deriver_manual L C R _ _ sigma_mad g se m thr mu 0 l0 Hp Hd).
      repeat split. }
  destruct S as (Sr & Sl & St). repeat (split; [assumption|]).
  subst o o'. clear Sr Sl St.
  destruct (known_method m) eqn:Hm.
  - destruct (step_size_selector (spec_rad g) (measured_norm g l) sigma tau)
      as [s|e] eqn:Hs.
    + destruct (@run_summary L C R I _ _ _ sigma_mad g l se m thr mu tau sigma
                  rf nrw n pos atol v s Hm Hs)
        as (d & td & st & l4 & tp & t & _ & _ & E & Ec & _).
      rewrite E. cbn [trace].
      assert (Ek : effective_reweights m nrw = O)
        by (unfold effective_reweights;
            destruct (is_method m "primal" || is_method m "dual"); lia).
      rewrite Ek in Ec. cbn [repeat List.concat] in Ec.
      rewrite app_nil_r in Ec.
      apply no_reweighting_of_calls. rewrite Ec.
      constructor; [now left|].
      apply Forall_forall. intros c Hc. apply repeat_spec in Hc. now right.
    + destruct (@driver_raises L C R I _ _ _ sigma_mad g l se m thr mu tau
                  sigma rf nrw n pos atol v e Hm Hs)
        as (p1 & td & P1 & _ & _ & Fd & E).
      rewrite E. cbn [trace].
      repeat (first [rewrite filter_app
                    | progress cbn [filter is_reweighting app]]).
      now rewrite (only_prints_no_reweighting P1), Fd.
  - destruct (@driver_rejects L C R I _ _ _ sigma_mad g l se m thr mu tau
                sigma rf nrw n pos atol v Hm)
      as (p1 & P1 & E).
    rewrite E. cbn [trace]. rewrite filter_app.
    now rewrite (only_prints_no_reweighting P1).
Qed.

(** ** The noise estimator *)

Lemma estimator_calls_app t1 t2 :
  estimator_calls (t1 ++ t2) = estimator_calls t1 ++ estimator_calls t2.
Proof.
  induction t1 as [|e t1 IH]; [reflexivity|].
  destruct e; cbn; now rewrite IH.
Qed.

Lemma estimator_calls_silent t :
  estimator_calls (silent t) = estimator_calls t.
Proof.
  induction t as [|e t IH]; [reflexivity|].
  unfold silent in *. destruct e; cbn; now rewrite ?IH.
Qed.

Lemma estimator_calls_updates w k :
  estimator_calls (repeat (EvUpdate w) k) = [].
Proof. induction k as [|k IH]; [reflexivity|]. exact IH. Qed.

Lemma estimator_calls_controller k primal max (c : carried L R I) :
  estimator_calls (controller_calls k primal max c) = [].
Proof.
  revert c. induction k as [|k IH]; intros c; [reflexivity|].
  cbn [controller_calls]. rewrite estimator_calls_app, IH.
  unfold continuation_calls. now destruct primal.
Qed.

(** X7.  A call that returns runs the noise estimator once, on
    [MtX(y)], in "primal" mode without [std_est], and never otherwise: a
    supplied estimate, the "dual" mode and manual mode bypass it, and no
    reweighting pass calls it. *)
Theorem estimator_runs_at_most_once (g : GradientOp) (l : L) se m thr mu tau
  sigma rf nrw n (pos : bool) (atol : Q) v s :
  let o := sparse_rec_condatvu sigma_mad g l se m thr mu tau sigma rf nrw n
             pos atol v in
  known_method m = true ->
  step_size_selector (spec_rad g) (measured_norm g l) sigma tau = Ok s ->
  estimator_calls (trace o)
  = match se with
    | None => if is_method m "primal" then [MtX g (grad_y g)] else []
    | Some _ => []
    end.
Proof.
  intros o Hm Hs. subst o.
  destruct (@run_summary L C R I _ _ _ sigma_mad g l se m thr mu tau sigma
              rf nrw n pos atol v s Hm Hs)
    as (d & td & st & l4 & tp & t & Rd & [_ Closed] & E & _ & _ & _ & _ & _
        & Es).
  rewrite E. cbn [trace]. rewrite <- estimator_calls_silent, Es.
  assert (Ep : estimator_calls (silent tp) = []).
  { cbn zeta in Closed. destruct (d_reweight_op d).
    - destruct Closed as (_ & _ & ->). apply estimator_calls_controller.
    - destruct Closed as (_ & _ & ->). reflexivity. }
  cbn [estimator_calls]. rewrite estimator_calls_app. cbn [estimator_calls].
  rewrite estimator_calls_app, estimator_calls_updates,
    estimator_calls_app, Ep.
  cbn [estimator_calls app]. rewrite app_nil_r.
  destruct (is_method m "primal") eqn:Hp;
    [|destruct (is_method m "dual") eqn:Hd].
  - destruct (runs_inj Rd (@deriver_primal L C R _ _ sigma_mad g se m thr mu
                             nrw l Hp)) as (_ & _ & ->).
    destruct se; reflexivity.
  - destruct (runs_inj Rd (@deriver_dual L C R _ _ sigma_mad g se m thr mu
                             nrw l Hp Hd)) as (_ & _ & ->).
    destruct se; reflexivity.
  - destruct (runs_inj Rd (@deriver_manual L C R _ _ sigma_mad g se m thr mu
                             nrw l Hp Hd)) as (_ & _ & ->).
    destruct se; reflexivity.
Qed.

(** ** Silence *)

Lemma no_print_bind A B (m : M L A) (f : A -> M L B) :
  (forall l, filter is_print (trace (m l)) = []) ->
  (forall a l, filter is_print (trace (f a l)) = []) ->
  forall l, filter is_print (trace (bind m f l)) = [].
Proof.
  intros Hm Hf l. unfold bind. destruct (res (m l)); cbn [trace].
  - now rewrite filter_app, Hm, Hf.
  - apply Hm.
Qed.

Lemma no_print_for_from S (body : Z -> S -> M L S) :
  (forall i s l, filter is_print (trace (body i s l)) = []) ->
  forall k i s l, filter is_print (trace (for_from k i body s l)) = [].
Proof.
  intros Hb k. induction k as [|k IH]; intros i s l; [reflexivity|].
  cbn [for_from]. apply no_print_bind; [intros; apply Hb|].
  intros a l'. apply IH.
Qed.

(** X12.  A call whose [verbose] is not positive prints nothing, whether it
    returns or raises. *)
Theorem silent_call_prints_nothing (g : GradientOp) (l : L) se m thr mu tau
  sigma rf nrw n (pos : bool) (atol : Q) v :
  (v <= 0)%Z ->
  filter is_print
    (trace (sparse_rec_condatvu sigma_mad g l se m thr mu tau sigma rf nrw n
              pos atol v))
  = [].
Proof.
  intros Hv. apply Z.ltb_ge in Hv.
  unfold sparse_rec_condatvu, when_verbose. rewrite Hv.
  apply no_print_bind; [reflexivity|]. intros _ l0.
  apply no_print_bind; [reflexivity|]. intros _ l1.
  destruct (negb (known_method m)); [reflexivity|].
  apply no_print_bind.
  { intros l'. unfold parameter_deriver.
    apply no_print_bind; [reflexivity|]. intros x l2.
    apply no_print_bind; [reflexivity|]. intros w l3.
    destruct (is_method m "primal"); [|destruct (is_method m "dual")].
    - apply no_print_bind; [destruct se; reflexivity|]. intros e l4.
      apply no_print_bind; reflexivity.
    - apply no_print_bind; reflexivity.
    - reflexivity. }
  intros d l2.
  apply no_print_bind; [reflexivity|]. intros norm l3.
  apply no_print_bind; [reflexivity|]. intros s l4.
  apply no_print_bind; [reflexivity|]. intros primal l5.
  apply no_print_bind; [reflexivity|]. intros dual l6.
  apply no_print_bind; [reflexivity|]. intros _ l7.
  apply no_print_bind; [reflexivity|]. intros cost_op l8.
  apply no_print_bind; [reflexivity|]. intros opt l9.
  apply no_print_bind; [reflexivity|]. intros _ l10.
  apply no_print_bind.
  { intros l'. unfold for_range. apply no_print_for_from. reflexivity. }
  intros opt1 l11.
  apply no_print_bind.
  { intros l'. unfold for_range. apply no_print_for_from.
    intros i s0 l''. unfold reweighting_pass, when_verbose. rewrite Hv.
    destruct (ls_reweight_op s0); [|reflexivity].
    apply no_print_bind.
    - intros l3'. destruct (is_method m "primal").
      + apply no_print_bind; [reflexivity|]. intros c l4'.
        apply no_print_bind; reflexivity.
      + apply no_print_bind; reflexivity.
    - intros r' l3'.
      apply no_print_bind; [reflexivity|]. intros _ l4'.
      apply no_print_bind; [reflexivity|]. intros _ l5'.
      apply no_print_bind; reflexivity. }
  intros st l12.
  apply no_print_bind; [reflexivity|]. intros _ l13.
  apply no_print_bind; [reflexivity|]. intros _ l14.
  apply no_print_bind; [reflexivity|]. intros _ l15.
  apply no_print_bind; reflexivity.
Qed.

End Extras.

Lemma optimizer_starts_from_zero_witness :
  let s := mkSteps (1 # 2) (3 # 4) false in
  let o := Toy.reconstruct None None (Some (3 # 4)) (Some (1 # 2)) 1 2
             (1 # 10000) 0 in
  known_method None = true
  /\ step_size_selector (spec_rad Toy.gradient_op)
       (measured_norm Toy.gradient_op Toy.linear_op) (Some (1 # 2))
       (Some (3 # 4)) = Ok s
  /\ exists a,
       condat_calls (trace o) = [a] /\ arg_x a = np_zeros [2%nat]
       /\ all_entries c0 (arg_y a).
Proof.
  intros s o. split; [reflexivity|]. split; [reflexivity|].
  destruct (@optimizer_starts_from_zero ndarray ndarray (ndarray * Q)
              Condat_args Toy.linear Toy.reweighting Toy.optimizer
              Toy.sigma_mad Toy.gradient_op Toy.linear_op None None 2
              (1 # 1000000) (Some (3 # 4)) (Some (1 # 2)) 1 1 2 false
              (1 # 10000) 0 s eq_refl eq_refl)
    as (a & Ha & _ & Hx & Hy & _).
  exists a. split; [exact Ha|]. split; [exact Hx|exact Hy].
Defined.

Lemma supplying_derived_tau_changes_nothing_witness :
  ~ spec_rad Toy.gradient_op / 2
    + select_sigma None * measured_norm Toy.gradient_op Toy.linear_op ^ 2
    + eps == 0
  /\ Toy.reconstruct None (Some "primal"%string) None None 1 2 (1 # 10000) 1
     = Toy.reconstruct None (Some "primal"%string)
         (Some (1 / (spec_rad Toy.gradient_op / 2
                     + select_sigma None
                       * measured_norm Toy.gradient_op Toy.linear_op ^ 2
                     + eps)))
         None 1 2 (1 # 10000) 1.
Proof.
  split; [discriminate|].
  apply (@supplying_derived_tau_changes_nothing ndarray ndarray (ndarray * Q)
           Condat_args Toy.linear Toy.reweighting Toy.optimizer
           Toy.sigma_mad Toy.gradient_op Toy.linear_op None
           (Some "primal"%string) 2 (1 # 1000000) None 1 1 2 false
           (1 # 10000) 1).
  discriminate.
Defined.

Lemma estimator_runs_at_most_once_witness :
  let s := mkSteps (1 # 2) (3 # 4) false in
  let o := Toy.reconstruct None (Some "primal"%string) (Some (3 # 4))
             (Some (1 # 2)) 2 1 (1 # 10000) 0 in
  known_method (Some "primal"%string) = true
  /\ step_size_selector (spec_rad Toy.gradient_op)
       (measured_norm Toy.gradient_op Toy.linear_op) (Some (1 # 2))
       (Some (3 # 4)) = Ok s
  /\ estimator_calls (trace o)
     = [MtX Toy.gradient_op (grad_y Toy.gradient_op)].
Proof.
  intros s o. split; [reflexivity|]. split; [reflexivity|].
  exact (@estimator_runs_at_most_once ndarray ndarray (ndarray * Q)
           Condat_args Toy.linear Toy.reweighting Toy.optimizer
           Toy.sigma_mad Toy.gradient_op Toy.linear_op None
           (Some "primal"%string) 2 (1 # 1000000) (Some (3 # 4))
           (Some (1 # 2)) 1 2 1 false (1 # 10000) 0 s eq_refl eq_refl).
Defined.

Lemma mu_only_matters_in_manual_mode_witness :
  let o := Toy.reconstruct None (Some "dual"%string) None None 1 2
             (1 # 10000) 0 in
  let o' := sparse_rec_condatvu Toy.sigma_mad Toy.gradient_op Toy.linear_op
              None (Some "dual"%string) 2 5 None None 1 1 2 false (1 # 10000)
              0 in
  is_method (Some "dual"%string) "primal"
  || is_method (Some "dual"%string) "dual" = true
  /\ res o = res o' /\ lin o = lin o'
  /\ silent (trace o) = silent (trace o').
Proof.
  intros o o'. split; [reflexivity|].
  exact (@mu_only_matters_in_manual_mode ndarray ndarray (ndarray * Q)
           Condat_args Toy.linear Toy.reweighting Toy.optimizer
           Toy.sigma_mad Toy.gradient_op Toy.linear_op None
           (Some "dual"%string) 2 (1 # 1000000) 5 None None 1 1 2 false
           (1 # 10000) 0 eq_refl).
Defined.

Lemma nonpositive_reweights_is_zero_witness :
  let o := Toy.reconstruct None (Some "primal"%string) None None (-3) 2
             (1 # 10000) 0 in
  let o' := Toy.reconstruct None (Some "primal"%string) None None 0 2
              (1 # 10000) 0 in
  (-3 <= 0)%Z
  /\ res o = res o' /\ lin o = lin o'
  /\ silent (trace o) = silent (trace o')
  /\ filter is_reweighting (trace o) = [].
Proof.
  intros o o'.
  assert (H : (-3 <= 0)%Z) by discriminate.
  split; [exact H|].
  exact (@nonpositive_reweights_is_zero ndarray ndarray (ndarray * Q)
           Condat_args Toy.linear Toy.reweighting Toy.optimizer
           Toy.sigma_mad Toy.gradient_op Toy.linear_op None
           (Some "primal"%string) 2 (1 # 1000000) None None 1 (-3) 2 false
           (1 # 10000) 0 H).
Defined.

Lemma silent_call_prints_nothing_witness :
  (0 <= 0)%Z
  /\ filter is_print
       (trace (Toy.reconstruct None (Some "primal"%string) None None 1 2
                 (1 # 10000) 0))
     = [].
Proof.
  assert (H : (0 <= 0)%Z) by discriminate.
  split; [exact H|].
  exact (@silent_call_prints_nothing ndarray ndarray (ndarray * Q)
           Condat_args Toy.linear Toy.reweighting Toy.optimizer
           Toy.sigma_mad Toy.gradient_op Toy.linear_op None
           (Some "primal"%string) 2 (1 # 1000000) None None 1 1 2 false
           (1 # 10000) 0 H).
Defined.

(** * The checks of the binding tests *)

Module BindingFacts.

Import Binding.

Lemma zip_length A (f : Q -> Q -> A) a b :
  List.length a = List.length b ->
  List.length (zip f a b) = List.length a.
Proof.
  revert b. induction a as [|x a IH]; intros [|y b] H; try discriminate H;
    [reflexivity|].
  cbn. f_equal. apply IH. now injection H.
Qed.

Lemma zip_forallb (f : Q -> Q -> bool) a b :
  List.length a = List.length b ->
  (forallb (fun c => c) (zip f a b) = true
   <-> forall i x y,
         nth_error a i = Some x -> nth_error b i = Some y -> f x y = true).
Proof.
  revert b. induction a as [|x a IH]; intros [|y b] H; try discriminate H.
  - split; [|reflexivity]. intros _ [|i] x y Hx; discriminate Hx.
  - injection H as H. cbn [zip forallb]. rewrite andb_true_iff, (IH b H).
    split.
    + intros [Hxy Hall] [|i] x' y' Hx Hy.
      * cbn in Hx, Hy. injection Hx as <-. injection Hy as <-. exact Hxy.
      * exact (Hall i x' y' Hx Hy).
    + intros Hall. split.
      * exact (Hall O x y eq_refl eq_refl).
      * intros i x' y'. exact (Hall (S i) x' y').
Qed.

Lemma zip_existsb (f : Q -> Q -> bool) a b :
  List.length a = List.length b ->
  (existsb (fun c => c) (zip f a b) = true
   <-> exists i x y,
         nth_error a i = Some x /\ nth_error b i = Some y /\ f x y = true).
Proof.
  revert b. induction a as [|x a IH]; intros [|y b] H; try discriminate H.
  - split; [discriminate|]. intros ([|i] & x & y & Hx & _); discriminate Hx.
  - injection H as H. cbn [zip existsb]. rewrite orb_true_iff, (IH b H).
    split.
    + intros [Hxy|(i & x' & y' & Hx & Hy & Hf)].
      * exists O, x, y. now repeat split.
      * exists (S i), x', y'. now repeat split.
    + intros ([|i] & x' & y' & Hx & Hy & Hf).
      * cbn in Hx, Hy. injection Hx as <-. injection Hy as <-. now left.
      * right. now exists i, x', y'.
Qed.

Lemma all_diff_existsb a b :
  negb (all (zip Qminus a b))
  = existsb (fun c => c) (zip (fun x y => Qeq_bool x y) a b).
Proof.
  unfold all. revert b. induction a as [|x a IH]; intros [|y b];
    try reflexivity.
  cbn [zip forallb existsb]. rewrite negb_andb, negb_involutive, IH.
  f_equal. destruct (Qeq_bool x y) eqn:E.
  - apply Qeq_bool_iff in E. apply Qeq_bool_iff. rewrite E. ring.
  - destruct (Qeq_bool (x - y) 0) eqn:E'; [|reflexivity].
    apply Qeq_bool_iff in E'.
    assert (Exy : x == y) by lra.
    apply Qeq_bool_iff in Exy. congruence.
Qed.

(** X14.  The equivalence check [assertFalse(diff.all())] of the filter and
    deconvolution tests passes exactly when the two outputs are equal at
    some entry: one agreeing pixel is enough, and two empty outputs are
    rejected. *)
Theorem outputs_accepted_iff_one_entry_agrees data image :
  List.length data = List.length image ->
  (outputs_accepted data image = true
   <-> exists i x y,
         nth_error data i = Some x /\ nth_error image i = Some y /\ x == y).
Proof.
  intros H. unfold outputs_accepted. rewrite all_diff_existsb.
  rewrite (zip_existsb (fun x y => Qeq_bool x y) data image H).
  split; intros (i & x & y & Hx & Hy & E); exists i, x, y;
    (split; [exact Hx|split; [exact Hy|]]); now apply Qeq_bool_iff.
Qed.

(** Two outputs that agree in one entry only, then two that agree nowhere. *)
Lemma outputs_accepted_iff_one_entry_agrees_witness :
  List.length [1; 2; 3] = List.length [5; 2; 7]
  /\ outputs_accepted [1; 2; 3] [5; 2; 7] = true
  /\ outputs_accepted [1; 2; 3] [5; 6; 7] = false.
Proof.
  split; [reflexivity|]. split; [|reflexivity].
  apply (proj2 (@outputs_accepted_iff_one_entry_agrees [1; 2; 3] [5; 2; 7]
                  eq_refl)).
  exists 1%nat, 2, 2. repeat split; reflexivity.
Defined.

Lemma count_true_le bs :
  (count_occ bool_dec bs true <= List.length bs)%nat.
Proof.
  induction bs as [|b bs IH]; [apply Nat.le_refl|].
  cbn. destruct (bool_dec b true); lia.
Qed.

Lemma count_true_all bs :
  count_occ bool_dec bs true = List.length bs
  <-> forallb (fun c => c) bs = true.
Proof.
  induction bs as [|b bs IH]; [now split|].
  pose proof (count_true_le bs) as Hle.
  cbn. destruct (bool_dec b true) as [->|Hb].
  - cbn. rewrite <- IH. split; lia.
  - destruct b; [contradiction|]. cbn. split; [lia|discriminate].
Qed.

Lemma isclose_refl x : isclose x x = true.
Proof.
  unfold isclose. apply Qle_bool_iff.
  setoid_replace (x - x) with 0 by ring.
  pose proof (Qabs_nonneg x) as H. change (Qabs 0) with 0.
  set (a := Qabs x) in *. lra.
Qed.

(** X15.  The mismatch the transformation test prints, for a reconstruction
    and an image of one non-empty shape, is a fraction in [0, 1]; it is 0
    exactly when every entry of the reconstruction is close to the image's,
    as it is when the reconstruction is the image. *)
Theorem mismatch_is_the_fraction_not_close recim image :
  List.length recim = List.length image ->
  recim <> [] ->
  0 <= mismatch recim image /\ mismatch recim image <= 1
  /\ (mismatch recim image == 0
      <-> forall i x y,
            nth_error recim i = Some x -> nth_error image i = Some y ->
            isclose x y = true)
  /\ mismatch image image == 0.
Proof.
  intros H Hne.
  assert (Hn : (0 < List.length recim)%nat)
    by (destruct recim; [contradiction|cbn; lia]).
  assert (K : forall a b, List.length a = List.length b ->
                (0 < List.length a)%nat ->
                let c := inject_Z (Z.of_nat
                           (count_occ bool_dec (zip isclose a b) true)) in
                let k := inject_Z (Z.of_nat (List.length a)) in
                0 < k /\ 0 <= c /\ c <= k /\ mismatch a b == 1 - c / k
                /\ (c == k <-> forallb (fun c => c) (zip isclose a b) = true)).
  { intros a b Hab Ha c k.
    pose proof (count_true_le (zip isclose a b)) as Hle.
    rewrite (zip_length isclose a b Hab) in Hle.
    assert (Hk : 0 < k).
    { unfold k. change 0 with (inject_Z 0). rewrite <- Zlt_Qlt. lia. }
    assert (Hc : 0 <= c).
    { unfold c. change 0 with (inject_Z 0). rewrite <- Zle_Qle. lia. }
    assert (Hck : c <= k).
    { unfold c, k. rewrite <- Zle_Qle. lia. }
    repeat split; try assumption.
    - unfold mismatch, mean. rewrite (zip_length isclose a b Hab).
      reflexivity.
    - intros E. apply count_true_all.
      rewrite (zip_length isclose a b Hab).
      unfold c, k in E. apply Nat2Z.inj.
      exact (proj1 (inject_Z_injective _ _) E).
    - intros E. apply count_true_all in E.
      rewrite (zip_length isclose a b Hab) in E.
      unfold c, k. now rewrite E. }
  destruct (K recim image H Hn) as (Hk & Hc & Hck & Em & Eall).
  cbn zeta in *.
  set (c := inject_Z (Z.of_nat
                        (count_occ bool_dec (zip isclose recim image) true)))
    in *.
  set (k := inject_Z (Z.of_nat (List.length recim))) in *.
  assert (Ed : k * (c / k) == c) by (field; lra).
  set (q := c / k) in *.
  split; [rewrite Em; nra|]. split; [rewrite Em; nra|].
  split.
  - rewrite <- (zip_forallb isclose recim image H), <- Eall, Em.
    split; intros E; nra.
  - assert (Hi : (0 < List.length image)%nat) by lia.
    destruct (K image image eq_refl Hi) as (Hk' & _ & _ & Em' & Eall').
    cbn zeta in *. rewrite Em'.
    assert (E : forallb (fun c => c) (zip isclose image image) = true).
    { apply (zip_forallb isclose image image eq_refl).
      intros i x y Hx Hy. rewrite Hx in Hy. injection Hy as <-.
      apply isclose_refl. }
    apply Eall' in E. rewrite E. field. lra.
Qed.

Lemma mismatch_is_the_fraction_not_close_witness :
  List.length [1; 2; 3; 4] = List.length [1; 2; 5; 4]
  /\ [1; 2; 3; 4] <> []
  /\ mismatch [1; 2; 3; 4] [1; 2; 5; 4] == 1 # 4
  /\ 0 <= mismatch [1; 2; 3; 4] [1; 2; 5; 4]
  /\ mismatch [1; 2; 3; 4] [1; 2; 5; 4] <= 1.
Proof.
  assert (Hne : [1; 2; 3; 4] <> []) by discriminate.
  split; [reflexivity|]. split; [exact Hne|]. split; [reflexivity|].
  destruct (@mismatch_is_the_fraction_not_close [1; 2; 3; 4] [1; 2; 5; 4]
              eq_refl Hne) as (H0 & H1 & _).
  split; [exact H0|exact H1].
Defined.

End BindingFacts.
